(** * goblet: a caching proxy for the git smart-HTTP protocol

    Verification development for [goblet-server/main.go] (the server entry
    point: metric views, the [/healthz] probe, the default request logger and
    the [ServerConfig] handed to the proxy handler) and for the proxy engine
    it drives (Cache Manager, Fetch Coordinator, Front Door). *)

From Stdlib Require Import ZArith Lia Ascii String Sorted.
From stdpp Require Import base option list strings gmap pretty.

Local Open Scope Z_scope.
Local Open Scope string_scope.

(** ** Declarations of package [goblet] that [main.go] refers to *)

Module goblet.

(** Modelled from the spec: the tag keys of package [goblet]
    ([goblet.CommandTypeKey], [goblet.CommandCanonicalStatusKey],
    [goblet.CommandCacheStateKey]) are declared outside [main.go]; the
    three dimensions are "command type, canonical status, and cache
    state". *)
Inductive TagKey : Type :=
| CommandTypeKey
| CommandCanonicalStatusKey
| CommandCacheStateKey.

(** Modelled from the spec: the measures of package [goblet] named by the
    five views of [main.go]. *)
Inductive Measure : Type :=
| InboundCommandCount
| InboundCommandProcessingTime
| OutboundCommandCount
| OutboundCommandProcessingTime
| UpstreamFetchWaitingTime.

#[global] Instance TagKey_eq_dec : EqDecision TagKey.
Proof. solve_decision. Defined.

#[global] Instance Measure_eq_dec : EqDecision Measure.
Proof. solve_decision. Defined.

End goblet.

(** ** [net/http] as far as [main.go] uses it *)

Module http.

(** [*http.Request]: the fields the entry point and its hooks look at. *)
Record Request : Type := mkRequest {
  Method : string;
  URL_Path : string;
  RawQuery : string;
  Body : string
}.

(** [http.ResponseWriter] as the client sees it: the header of the
    response, the status line once written, and the bytes written to the
    body so far. *)
Record ResponseWriter : Type := mkResponseWriter {
  Header : gmap string (list string);
  status : option Z;
  body : string
}.

Definition newResponseWriter : ResponseWriter :=
  {| Header := ∅; status := None; body := "" |}.

(** [w.Header().Set(key, value)]: replaces any existing values of [key].
    Once the status line is written the header has been sent: a later
    [Set] changes the handler's map only, not the response. The keys
    used here are already in canonical MIME form. *)
Definition Header_Set (key value : string) (w : ResponseWriter) : ResponseWriter :=
  match status w with
  | Some _ => w
  | None =>
      {| Header := <[key := [value]]> (Header w); status := None;
         body := body w |}
  end.

Definition StatusOK : Z := 200.
Definition StatusMovedPermanently : Z := 301.
Definition StatusBadRequest : Z := 400.
Definition StatusNotFound : Z := 404.

(** [http.StatusText], for the codes above. *)
Definition StatusText (code : Z) : string :=
  if (code =? StatusOK)%Z then "OK"
  else if (code =? StatusMovedPermanently)%Z then "Moved Permanently"
  else if (code =? StatusBadRequest)%Z then "Bad Request"
  else if (code =? StatusNotFound)%Z then "Not Found"
  else "".

(** [w.WriteHeader(code)]: sends the status line, once. *)
Definition WriteHeader (code : Z) (w : ResponseWriter) : ResponseWriter :=
  {| Header := Header w;
     status := match status w with Some c => Some c | None => Some code end;
     body := body w |}.

(** [w.Write]: the first write sends the header with status 200 unless a
    status was written before; the bytes are appended to the body. *)
Definition Write (s : string) (w : ResponseWriter) : ResponseWriter :=
  {| Header := Header w;
     status := match status w with Some c => Some c | None => Some StatusOK end;
     body := body w +:+ s |}.

Definition Handler : Type := ResponseWriter → Request → ResponseWriter.

(** [ServeMux]: the registered patterns in registration order. The
    patterns of [main.go] name no host. *)
Definition ServeMux : Type := list (string * Handler).

Fixpoint ends_in_slash (s : string) : bool :=
  match s with
  | EmptyString => false
  | String c EmptyString => if Ascii.eqb c "/"%char then true else false
  | String _ rest => ends_in_slash rest
  end.

(** The exact-match table [mux.m[path]]. *)
Fixpoint match_exact (mux : ServeMux) (path : string) : option Handler :=
  match mux with
  | [] => None
  | (pat, h) :: rest =>
      if String.eqb pat path then Some h else match_exact rest path
  end.

(** The subtree patterns (those ending in a slash): the longest one that
    is a prefix of the path wins. *)
Fixpoint match_subtree (mux : ServeMux) (path : string)
         (best : option (nat * Handler)) : option Handler :=
  match mux with
  | [] => snd <$> best
  | (pat, h) :: rest =>
      if ends_in_slash pat && String.prefix pat path then
        match best with
        | Some (n, _) =>
            if (n <? String.length pat)%nat
            then match_subtree rest path (Some (String.length pat, h))
            else match_subtree rest path best
        | None => match_subtree rest path (Some (String.length pat, h))
        end
      else match_subtree rest path best
  end.

(** [mux.match(path)]: exact match first, then the longest subtree. *)
Definition mux_match (mux : ServeMux) (path : string) : option Handler :=
  match match_exact mux path with
  | Some h => Some h
  | None => match_subtree mux path None
  end.

(** [http.Error]: two headers, the status, and the text on a line. *)
Definition Error (w : ResponseWriter) (error : string) (code : Z)
  : ResponseWriter :=
  Write (error +:+ String "010"%char "")
    (WriteHeader code
       (Header_Set "X-Content-Type-Options" "nosniff"
          (Header_Set "Content-Type" "text/plain; charset=utf-8" w))).

(** [http.NotFound] *)
Definition NotFound (w : ResponseWriter) (_ : Request) : ResponseWriter :=
  Error w "404 page not found" StatusNotFound.

(** [mux.handler(host, path)] without host patterns. *)
Definition handler (mux : ServeMux) (path : string) : Handler :=
  match mux_match mux path with
  | Some h => h
  | None => NotFound
  end.

(** *** Path cleaning *)

(** The elements of a path, split at its slashes. *)
Fixpoint split_slash (s : string) : list string :=
  match s with
  | EmptyString => [EmptyString]
  | String c rest =>
      if Ascii.eqb c "/"%char then EmptyString :: split_slash rest
      else
        match split_slash rest with
        | elem :: more => String c elem :: more
        | [] => [String c EmptyString]
        end
  end.

(** The loop of [path.Clean] on a rooted path, one element at a time:
    empty elements and [.] are dropped, [..] removes the element before
    it (nothing at the root). [out] holds the elements kept, last
    first. *)
Fixpoint clean_elements (elems out : list string) : list string :=
  match elems with
  | [] => reverse out
  | e :: rest =>
      if String.eqb e "" then clean_elements rest out
      else if String.eqb e "." then clean_elements rest out
      else if String.eqb e ".." then clean_elements rest (tail out)
      else clean_elements rest (e :: out)
  end.

(** [path.Clean] on a rooted path (one that starts with a slash). *)
Definition path_Clean (p : string) : string :=
  "/" +:+ String.concat "/" (clean_elements (split_slash p) []).

(** [cleanPath] of [net/http]: the path is made rooted and cleaned, and
    the trailing slash that [path.Clean] removes is put back (the fast
    path of the source returns the same string). *)
Definition cleanPath (p : string) : string :=
  match p with
  | EmptyString => "/"
  | String c _ =>
      let p' := if Ascii.eqb c "/"%char then p else "/" +:+ p in
      let np := path_Clean p' in
      if ends_in_slash p' && negb (String.eqb np "/") then np +:+ "/"
      else np
  end.

(** *** Redirects *)

Fixpoint in_string (c : ascii) (s : string) : bool :=
  match s with
  | EmptyString => false
  | String d rest => if Ascii.eqb c d then true else in_string c rest
  end.

(** [shouldEscape(c, encodePath)] of [net/url]. *)
Definition shouldEscape (c : ascii) : bool :=
  let n := Ascii.N_of_ascii c in
  if ((97 <=? n) && (n <=? 122) || (65 <=? n) && (n <=? 90)
      || (48 <=? n) && (n <=? 57))%N then false
  else if in_string c "-_.~" then false
  else if in_string c "$&+,/:;=?@" then Ascii.eqb c "?"%char
  else true.

Definition hexdigit (upper : bool) (n : N) : ascii :=
  Ascii.ascii_of_N
    (if (n <? 10)%N then 48 + n else if upper then 55 + n else 87 + n)%N.

Definition hex (upper : bool) (c : ascii) : string :=
  let n := Ascii.N_of_ascii c in
  String (hexdigit upper (n / 16)%N) (String (hexdigit upper (n mod 16)%N) "").

(** [u.EscapedPath()] for a URL built from a path alone. *)
Fixpoint escape_path (s : string) : string :=
  match s with
  | EmptyString => ""
  | String c rest =>
      if shouldEscape c then String "%"%char (hex true c +:+ escape_path rest)
      else String c (escape_path rest)
  end.

(** [u.String()] for [&url.URL{Path: path, RawQuery: query}] with a
    rooted path. *)
Definition URL_String (path query : string) : string :=
  escape_path path +:+
  (if String.eqb query "" then "" else String "?"%char query).

Fixpoint hexEscapeNonASCII (s : string) : string :=
  match s with
  | EmptyString => ""
  | String c rest =>
      if (128 <=? Ascii.N_of_ascii c)%N
      then String "%"%char (hex false c +:+ hexEscapeNonASCII rest)
      else String c (hexEscapeNonASCII rest)
  end.

Fixpoint htmlEscape (s : string) : string :=
  match s with
  | EmptyString => ""
  | String c rest =>
      (if Ascii.eqb c "&"%char then "&amp;"
       else if Ascii.eqb c "<"%char then "&lt;"
       else if Ascii.eqb c ">"%char then "&gt;"
       else if Ascii.eqb c "034"%char then "&#34;"
       else if Ascii.eqb c "'"%char then "&#39;"
       else String c "") +:+ htmlEscape rest
  end.

(** The URL up to its first question mark, and the rest. *)
Fixpoint cut_query (url : string) : string * string :=
  match url with
  | EmptyString => ("", "")
  | String c rest =>
      if Ascii.eqb c "?"%char then ("", url)
      else let '(p, q) := cut_query rest in (String c p, q)
  end.

(** [http.Redirect] for a URL that is a rooted path with an optional
    query, which is what the mux passes: the path is cleaned once more
    with its trailing slash kept, [Location] is set, a response without
    a [Content-Type] gets one if the request is a GET or a HEAD, and a
    GET gets the short HTML body. *)
Definition Redirect (url : string) (code : Z) : Handler :=
  λ w r,
    let '(u, query) := cut_query url in
    let u1 := path_Clean u in
    let u2 := if ends_in_slash u && negb (ends_in_slash u1)
              then u1 +:+ "/" else u1 in
    let url' := u2 +:+ query in
    let hadCT := bool_decide (is_Some (Header w !! "Content-Type")) in
    let w1 := Header_Set "Location" (hexEscapeNonASCII url') w in
    let w2 := if negb hadCT
                 && (String.eqb (Method r) "GET"
                     || String.eqb (Method r) "HEAD")
              then Header_Set "Content-Type" "text/html; charset=utf-8" w1
              else w1 in
    let w3 := WriteHeader code w2 in
    if negb hadCT && String.eqb (Method r) "GET"
    then Write ("<a href=" +:+ String "034"%char (htmlEscape url') +:+
                String "034"%char ">" +:+ StatusText code +:+ "</a>." +:+
                String "010"%char (String "010"%char "")) w3
    else w3.

(** *** Dispatch *)

Definition registered (mux : ServeMux) (path : string) : bool :=
  match match_exact mux path with Some _ => true | None => false end.

(** [mux.shouldRedirectRLocked]: a path that is not registered while the
    same path with a slash added is. *)
Definition shouldRedirect (mux : ServeMux) (path : string) : bool :=
  if registered mux path then false
  else
    match path with
    | EmptyString => false
    | _ =>
        if registered mux (path +:+ "/") then negb (ends_in_slash path)
        else false
    end.

(** [ServeMux.Handler]: a CONNECT request is looked up as it is; any
    other request has its (decoded) path cleaned, and is redirected to
    the clean path when that differs from the path it sent. *)
Definition ServeMux_Handler (mux : ServeMux) (r : Request) : Handler :=
  if String.eqb (Method r) "CONNECT" then
    if shouldRedirect mux (URL_Path r)
    then Redirect (URL_String (URL_Path r +:+ "/") (RawQuery r))
           StatusMovedPermanently
    else handler mux (URL_Path r)
  else
    let path := cleanPath (URL_Path r) in
    if shouldRedirect mux path
    then Redirect (URL_String (path +:+ "/") (RawQuery r))
           StatusMovedPermanently
    else if negb (String.eqb path (URL_Path r))
    then Redirect (URL_String path (RawQuery r)) StatusMovedPermanently
    else handler mux (URL_Path r).

(** [ServeMux.ServeHTTP]. A request whose target is [*] (the server gives
    it the path [*], and answers it itself when it is an OPTIONS) is
    refused; requests are taken to be HTTP/1.1 or later, for which the
    refusal closes the connection. *)
Definition ServeHTTP (mux : ServeMux) (w : ResponseWriter) (r : Request)
  : ResponseWriter :=
  if String.eqb (URL_Path r) "*"
  then WriteHeader StatusBadRequest (Header_Set "Connection" "close" w)
  else ServeMux_Handler mux r w r.

End http.

(** ** [go.opencensus.io/stats/view] as far as [main.go] uses it *)

Module view.

Inductive Aggregation : Type :=
| Count
| Distribution (bounds : list Z).

Record View : Type := mkView {
  Name : string;
  Description : string;
  TagKeys : list goblet.TagKey;
  Measure : goblet.Measure;
  Aggregation_ : Aggregation
}.

End view.

(** ** [fmt] and [log] as far as [main.go] uses them *)

Module fmt.

(** The operands [main.go] passes to [Printf]-style functions. *)
Inductive arg : Type :=
| Bytes (b : string)          (* a []byte *)
| Int (n : Z)                 (* int, int64 *)
| Str (s : string)            (* string *)
| Duration (d : Z)            (* time.Duration, in nanoseconds *)
| Err (e : option string).    (* error, nil or not *)

Section Verbs.

(** [strconv.Quote] (the rendering of [%q]) and [time.Duration.String]
    are library code: they are taken as given. *)
Variable Quote : string → string.
Variable Duration_String : Z → string.

(** One verb applied to one operand. Pairs that [main.go] never forms
    render as a bad-verb marker. *)
Definition render (verb : ascii) (a : arg) : string :=
  if Ascii.eqb verb "d"%char then
    match a with
    | Int n => pretty n
    | Duration d => pretty d
    | _ => "%!d(BADVERB)"
    end
  else if Ascii.eqb verb "q"%char then
    match a with
    | Bytes b => Quote b
    | Str s => Quote s
    | _ => "%!q(BADVERB)"
    end
  else if Ascii.eqb verb "s"%char then
    match a with
    | Str s => s
    | Bytes b => b
    | Duration d => Duration_String d
    | Err (Some e) => e
    | _ => "%!s(BADVERB)"
    end
  else if Ascii.eqb verb "v"%char then
    match a with
    | Str s => s
    | Int n => pretty n
    | Duration d => Duration_String d
    | Err (Some e) => e
    | Err None => "<nil>"
    | Bytes _ => "%!v(BADVERB)"
    end
  else "%!(NOVERB)".

(** [fmt.Sprintf] for formats like those of [main.go]: literal text is
    copied, [%%] is a percent sign, any other [%c] consumes the next
    operand. Flags, widths and precisions are not read, and operands left
    over when the format ends are dropped (the library appends a note
    about them); no format of [main.go] has either. *)
Fixpoint Sprintf (format : string) (args : list arg) : string :=
  match format with
  | EmptyString => ""
  | String c rest =>
      if Ascii.eqb c "%"%char then
        match rest with
        | EmptyString => "%!(NOVERB)"
        | String v rest' =>
            if Ascii.eqb v "%"%char then String "%"%char (Sprintf rest' args)
            else
              match args with
              | a :: args' => render v a +:+ Sprintf rest' args'
              | [] => "%!" +:+ String v "(MISSING)" +:+ Sprintf rest' []
              end
        end
      else String c (Sprintf rest args)
  end.

End Verbs.

End fmt.

Module log.

(** The standard logger's output: one entry per [log.Printf] call (the
    timestamp prefix and the final newline are left out). *)
Definition Logger : Type := list string.

Definition Printf (Quote : string → string) (Duration_String : Z → string)
           (format : string) (args : list fmt.arg) (l : Logger) : Logger :=
  (l ++ [fmt.Sprintf Quote Duration_String format args])%list.

End log.

(** [s] occurs somewhere inside [line]. *)
Definition contains (s line : string) : Prop :=
  ∃ pre post : string, line = pre +:+ s +:+ post.

(** ** Package [goblet]: the configuration record *)

Module config.

Definition error : Type := string.
Definition URL : Type := string.

(** [goblet.RunningOperation]: progress and completion callbacks. *)
Record RunningOperation : Type := mkRunningOperation {
  Printf : string → list fmt.arg → log.Logger → log.Logger;
  Done : option error → log.Logger → log.Logger
}.

(** Modelled from the spec: [goblet.ServerConfig] is declared outside
    [main.go]; its five fields are those the composite literal in [main]
    sets, and the three function-typed hooks can be [nil]. *)
Record ServerConfig : Type := mkServerConfig {
  LocalDiskCacheRoot : string;
  URLCanonializer : URL → URL + error;
  ErrorReporter : option (http.Request → error → log.Logger → log.Logger);
  RequestLogger :
    option (http.Request → Z → Z → Z → Z → log.Logger → log.Logger);
  LongRunningOperationLogger :
    option (string → URL → log.Logger → RunningOperation * log.Logger)
}.

End config.

(** ** Package [main]: [goblet-server/main.go] *)

Module goblet_server.

Import goblet view config.

Definition latencyDistributionAggregation : Aggregation :=
  Distribution
    [100; 200; 400; 800;
     1000; 2000; 4000; 8000;
     10000; 20000; 40000; 80000;
     100000; 200000; 400000; 800000;
     1000000; 2000000; 4000000; 8000000].

Definition views : list View :=
  [ {| Name := "github.com/google/goblet/inbound-command-count";
       Description := "Inbound command count";
       TagKeys := [CommandTypeKey; CommandCanonicalStatusKey; CommandCacheStateKey];
       Measure := InboundCommandCount;
       Aggregation_ := Count |};
    {| Name := "github.com/google/goblet/inbound-command-latency";
       Description := "Inbound command latency";
       TagKeys := [CommandTypeKey; CommandCanonicalStatusKey; CommandCacheStateKey];
       Measure := InboundCommandProcessingTime;
       Aggregation_ := latencyDistributionAggregation |};
    {| Name := "github.com/google/goblet/outbound-command-count";
       Description := "Outbound command count";
       TagKeys := [CommandTypeKey; CommandCanonicalStatusKey];
       Measure := OutboundCommandCount;
       Aggregation_ := Count |};
    {| Name := "github.com/google/goblet/outbound-command-latency";
       Description := "Outbound command latency";
       TagKeys := [CommandTypeKey; CommandCanonicalStatusKey];
       Measure := OutboundCommandProcessingTime;
       Aggregation_ := latencyDistributionAggregation |};
    {| Name := "github.com/google/goblet/upstream-fetch-blocking-time";
       Description := "Duration that requests are waiting for git-fetch from the upstream";
       TagKeys := [];
       Measure := UpstreamFetchWaitingTime;
       Aggregation_ := latencyDistributionAggregation |} ].

(** The views that aggregate a given measure. *)
Definition views_of (m : goblet.Measure) : list View :=
  filter (λ v, Measure v = m) views.

(** What [main] leaves running once [http.ListenAndServe] is reached:
    the views it handed to [view.Register], the configuration, the
    patterns of the default mux and the listen address. *)
Record Process : Type := mkProcess {
  registered : list View;
  serverConfig : ServerConfig;
  mux : http.ServeMux;
  addr : string
}.

Section Main.

(** Library and embedder code that [main.go] calls. *)
Variable Quote : string → string.
Variable Duration_String : Z → string.
Variable DumpRequest : http.Request → bool → string + error.
Variable CanonicalizeURL : URL → URL + error.
Variable HTTPHandler : ServerConfig → http.Handler.
Variable view_Register : list View → option error.

(** The closure bound to [rl]. *)
Definition rl (r : http.Request) (status requestSize responseSize latency : Z)
           (l : log.Logger) : log.Logger :=
  match DumpRequest r false with
  | inr err => l
  | inl dump =>
      log.Printf Quote Duration_String
        "%q %d reqsize: %d, respsize %d, latency: %v"
        [fmt.Bytes dump; fmt.Int status; fmt.Int requestSize;
         fmt.Int responseSize; fmt.Duration latency] l
  end.

(** [logBasedOperation] and its two methods. *)
Definition logBasedOperation (action : string) (u : URL) : RunningOperation :=
  {| Printf := λ format a l,
       log.Printf Quote Duration_String "Progress %s (%s): %s"
         [fmt.Str action; fmt.Str u;
          fmt.Str (fmt.Sprintf Quote Duration_String format a)] l;
     Done := λ err l,
       log.Printf Quote Duration_String "Finished %s for %s: %v"
         [fmt.Str action; fmt.Str u; fmt.Err err] l |}.

(** The closure bound to [lrol]. *)
Definition lrol (action : string) (u : URL) (l : log.Logger)
  : RunningOperation * log.Logger :=
  (logBasedOperation action u,
   log.Printf Quote Duration_String "Starting %s for %s"
     [fmt.Str action; fmt.Str u] l).

(** The handler registered for [/healthz]. *)
Definition healthz : http.Handler :=
  λ w req,
    http.Write ("ok" +:+ String "010"%char "")
      (http.Header_Set "Content-Type" "text/plain" w).

(** [main], from the parsed flags to the serving process; [inl] is the
    [log.Fatal] exit when the views cannot be registered. *)
Definition main (port : Z) (cacheRoot : string) : error + Process :=
  match view_Register views with
  | Some err => inl err
  | None =>
      let er : option (http.Request → error → log.Logger → log.Logger) :=
        None in
      let config :=
        {| LocalDiskCacheRoot := cacheRoot;
           URLCanonializer := CanonicalizeURL;
           ErrorReporter := er;
           RequestLogger := Some rl;
           LongRunningOperationLogger := Some lrol |} in
      inr {| registered := views;
             serverConfig := config;
             mux := [("/healthz", healthz); ("/", HTTPHandler config)];
             addr := fmt.Sprintf Quote Duration_String ":%d" [fmt.Int port] |}
  end.

End Main.

End goblet_server.

(** ** The proxy engine: data model *)

Module core.

Import goblet.

Abbreviation CanonicalRepoURL := string (only parsing).
Abbreviation error := string (only parsing).

(** The identity of a [MirrorEntry] object: its slot in the store of
    entries. Two holders of the same [ref] share one entry. *)
Abbreviation ref := nat (only parsing).

(** Modelled from the spec: the engine (package [goblet]) is not part of
    the sources at hand; the data model follows section 3, "state:
    {Uninitialized, Fresh, Refreshing, Stale, Failed}". *)
Inductive State : Type :=
| Uninitialized
| Fresh
| Refreshing
| Stale
| Failed.

#[global] Instance State_eq_dec : EqDecision State.
Proof. solve_decision. Defined.

Record MirrorEntry : Type := mkMirrorEntry {
  key : CanonicalRepoURL;
  localPath : string;
  state : State;
  lastRefreshTime : option Z;
  lastRefreshError : option error
}.

Inductive CommandType : Type := InfoRefs | UploadPack | ReceivePack.
Inductive CacheState : Type := Hit | Miss | Bypass.
Inductive CanonicalStatus : Type :=
| Success
| ClientError
| UpstreamError
| InternalError.

#[global] Instance CommandType_eq_dec : EqDecision CommandType.
Proof. solve_decision. Defined.

Record Command : Type := mkCommand {
  type : CommandType;
  targetURL : CanonicalRepoURL;
  payload : string
}.

(** The process-wide registry from canonical URL to entry, the store of
    entries, and the directories under the cache root (each with the
    number of refreshes written into it). *)
Record Cache : Type := mkCache {
  registry : gmap string nat;
  heap : list MirrorEntry;
  disk : gmap string nat
}.

Definition emptyCache : Cache :=
  {| registry := ∅; heap := []; disk := ∅ |}.

(** ** Metrics/Tag Model *)

Inductive TagValue : Type :=
| OfType (t : CommandType)
| OfStatus (s : CanonicalStatus)
| OfCache (c : CacheState).

Record Measurement : Type := mkMeasurement {
  measure : Measure;
  tags : list (TagKey * TagValue);
  value : Z
}.

Definition tagKeys (m : Measurement) : list TagKey := fst <$> tags m.

Definition count_of (ms : list Measurement) (x : Measure) : nat :=
  length (filter (λ m, measure m = x) ms).

(** ** Shared state of the engine *)

Inductive FetchKind : Type := FullClone | Incremental.

Inductive UpstreamCall : Type :=
| UpFetch (r : ref) (k : FetchKind)
| UpForward (u : CanonicalRepoURL) (body : string).

Inductive Cause : Type := BecauseStale | BecauseMissingObject.

Inductive ExecResult : Type :=
| Output (bytes : string)
| MissingObject
| ExecFailure (e : error).

(** Calls the Front Door makes into the Fetch Coordinator and the Command
    Executor, in order. *)
Inductive Event : Type :=
| CallEnsureFresh (r : ref) (why : Cause)
| CallExecutor (r : ref) (attempt : nat) (res : ExecResult).

Record World : Type := mkWorld {
  cache : Cache;
  upstream : list UpstreamCall;
  events : list Event;
  stats : list Measurement;
  reports : list error
}.

Definition emptyWorld : World :=
  {| cache := emptyCache; upstream := []; events := []; stats := [];
     reports := [] |}.

Definition with_cache (c : Cache) (w : World) : World :=
  {| cache := c; upstream := upstream w; events := events w;
     stats := stats w; reports := reports w |}.

Definition call_upstream (c : UpstreamCall) (w : World) : World :=
  {| cache := cache w; upstream := upstream w ++ [c]; events := events w;
     stats := stats w; reports := reports w |}.

Definition note (e : Event) (w : World) : World :=
  {| cache := cache w; upstream := upstream w; events := events w ++ [e];
     stats := stats w; reports := reports w |}.

Definition record (ms : list Measurement) (w : World) : World :=
  {| cache := cache w; upstream := upstream w; events := events w;
     stats := stats w ++ ms; reports := reports w |}.

Definition report (e : error) (w : World) : World :=
  {| cache := cache w; upstream := upstream w; events := events w;
     stats := stats w; reports := reports w ++ [e] |}.

(** How many elements of a list pass a test. *)
Definition count_true {A : Type} (P : A → bool) (l : list A) : nat :=
  length (filter (λ x, P x = true) l).

Definition is_fetch (c : UpstreamCall) : bool :=
  match c with UpFetch _ _ => true | UpForward _ _ => false end.

Definition fetch_count (w : World) : nat :=
  count_true is_fetch (upstream w).

(** ** Repository Cache Manager *)

Section CacheManager.

(** The directory of a canonical URL under the cache root, and the
    embedder's canonicalizer. *)
Variable localDiskPath : CanonicalRepoURL → string.
Variable canonicalize : string → string + string.

Definition newEntry (u : CanonicalRepoURL) : MirrorEntry :=
  {| key := u; localPath := localDiskPath u; state := Uninitialized;
     lastRefreshTime := None; lastRefreshError := None |}.

(** Modelled from the spec: [resolve(url) -> MirrorEntry] of section
    4.2, "creates the on-disk directory and initializes state the first
    time a URL is seen; subsequent calls return the same entry". One
    call is atomic with respect to the registry. *)
Definition resolve (u : CanonicalRepoURL) (c : Cache) : nat * Cache :=
  match registry c !! u with
  | Some r => (r, c)
  | None =>
      let r := length (heap c) in
      (r, {| registry := <[u := r]> (registry c);
             heap := heap c ++ [newEntry u];
             disk := match disk c !! localDiskPath u with
                     | Some _ => disk c
                     | None => <[localDiskPath u := 0%nat]> (disk c)
                     end |})
  end.

(** The canonicalizer followed by the Cache Manager. *)
Definition resolveURL (input : string) (c : Cache)
  : (string + nat) * Cache :=
  match canonicalize input with
  | inr e => (inl e, c)
  | inl u => let '(r, c') := resolve u c in (inr r, c')
  end.

(** *** First-access races

    Modelled from the spec: "Concurrency-safe under concurrent
    first-access races (exactly one creation wins; others observe the
    created entry)" and "insertion must be atomic". A request first
    looks its URL up; a request that saw no entry goes on to the atomic
    insert-if-absent, which it may lose to another request. *)
Inductive Resolver : Type :=
| Arrived (input : string)
| Creating (u : CanonicalRepoURL)
| Resolved (u : CanonicalRepoURL) (r : ref)
| Rejected (e : error).

Record Race : Type := mkRace {
  shared : Cache;
  resolvers : list Resolver;
  creations : list CanonicalRepoURL
}.

Definition race_init (inputs : list string) : Race :=
  {| shared := emptyCache; resolvers := Arrived <$> inputs;
     creations := [] |}.

(** One atomic step of request [i]. *)
Definition race_step (i : nat) (s : Race) : Race :=
  match resolvers s !! i with
  | Some (Arrived input) =>
      match canonicalize input with
      | inr e =>
          {| shared := shared s;
             resolvers := <[i := Rejected e]> (resolvers s);
             creations := creations s |}
      | inl u =>
          {| shared := shared s;
             resolvers :=
               <[i := match registry (shared s) !! u with
                      | Some r => Resolved u r
                      | None => Creating u
                      end]> (resolvers s);
             creations := creations s |}
      end
  | Some (Creating u) =>
      let '(r, c') := resolve u (shared s) in
      {| shared := c';
         resolvers := <[i := Resolved u r]> (resolvers s);
         creations := match registry (shared s) !! u with
                      | Some _ => creations s
                      | None => creations s ++ [u]
                      end |}
  | _ => s
  end.

Definition race_run (schedule : list nat) (s : Race) : Race :=
  foldl (λ s i, race_step i s) s schedule.

Definition created (u : CanonicalRepoURL) (s : Race) : nat :=
  length (filter (λ v, v = u) (creations s)).

(** What every state of a race satisfies: a request that has its entry
    holds the registered one, each URL was created once if it is
    registered and never otherwise, and a registered reference names an
    entry of that URL whose directory exists. *)
Definition race_inv (s : Race) : Prop :=
  (∀ i u r, resolvers s !! i = Some (Resolved u r) →
            registry (shared s) !! u = Some r) ∧
  (∀ u, created u s =
        match registry (shared s) !! u with
        | Some _ => 1%nat
        | None => 0%nat
        end) ∧
  (∀ u r, registry (shared s) !! u = Some r →
          ∃ e, heap (shared s) !! r = Some e ∧ key e = u ∧
               localPath e = localDiskPath u ∧
               is_Some (disk (shared s) !! localDiskPath u)).

End CacheManager.

(** ** Upstream Fetch Coordinator *)

(** How one upstream fetch ended: its error (if any), the time it
    finished and how long it took. *)
Record FetchOutcome : Type := mkFetchOutcome {
  fetchError : option error;
  finishedAt : Z;
  elapsed : Z
}.

Definition statusOf (o : FetchOutcome) : CanonicalStatus :=
  match fetchError o with None => Success | Some _ => UpstreamError end.

Definition set_state (r : ref) (f : MirrorEntry → MirrorEntry) (c : Cache)
  : Cache :=
  {| registry := registry c; heap := alter f r (heap c); disk := disk c |}.

Definition toRefreshing (e : MirrorEntry) : MirrorEntry :=
  {| key := key e; localPath := localPath e; state := Refreshing;
     lastRefreshTime := lastRefreshTime e;
     lastRefreshError := lastRefreshError e |}.

Definition toFresh (t : Z) (e : MirrorEntry) : MirrorEntry :=
  {| key := key e; localPath := localPath e; state := Fresh;
     lastRefreshTime := Some t; lastRefreshError := None |}.

Definition toFailed (err : error) (e : MirrorEntry) : MirrorEntry :=
  {| key := key e; localPath := localPath e; state := Failed;
     lastRefreshTime := lastRefreshTime e;
     lastRefreshError := Some err |}.

(** A successful fetch writes into the mirror directory. *)
Definition write_mirror (path : string) (c : Cache) : Cache :=
  {| registry := registry c; heap := heap c;
     disk := <[path := S (default 0%nat (disk c !! path))]> (disk c) |}.

Inductive Begin : Type :=
| Join
| Start (k : FetchKind).

(** Modelled from the spec: the entry check of [ensureFresh] (section
    4.3), done under the entry's lock: "if entry.state == Refreshing, the
    caller waits for the in-flight refresh ... If entry.state !=
    Refreshing, this caller becomes the refresher: transitions state to
    Refreshing, performs a mirror fetch from the upstream origin (full
    clone if Uninitialized, incremental update otherwise)". [None] for a
    reference that names no entry. *)
Definition beginRefresh (r : ref) (w : World) : option (Begin * World) :=
  match heap (cache w) !! r with
  | None => None
  | Some e =>
      if decide (state e = Refreshing) then Some (Join, w)
      else
        let k := if decide (state e = Uninitialized) then FullClone
                 else Incremental in
        Some (Start k,
              call_upstream (UpFetch r k)
                (with_cache (set_state r toRefreshing (cache w)) w))
  end.

(** The two outbound measurements of one upstream fetch. *)
Definition outboundMeasurements (t : CommandType) (o : FetchOutcome)
  : list Measurement :=
  [ {| measure := OutboundCommandCount;
       tags := [(CommandTypeKey, OfType t);
                (CommandCanonicalStatusKey, OfStatus (statusOf o))];
       value := 1 |};
    {| measure := OutboundCommandProcessingTime;
       tags := [(CommandTypeKey, OfType t);
                (CommandCanonicalStatusKey, OfStatus (statusOf o))];
       value := elapsed o |} ].

(** Modelled from the spec: the end of a refresh (section 4.3), done by
    the refresher: "on completion transitions to Fresh (success) or
    Failed (error)", "the error is recorded on the entry (state=Failed,
    lastRefreshError set)", and "emits outbound-command-count /
    outbound-command-latency per actual upstream fetch performed". *)
Definition finishRefresh (r : ref) (t : CommandType) (o : FetchOutcome)
           (w : World) : World :=
  let c := cache w in
  let c' :=
    match fetchError o with
    | None =>
        let c1 := set_state r (toFresh (finishedAt o)) c in
        match heap c !! r with
        | Some e => write_mirror (localPath e) c1
        | None => c1
        end
    | Some err => set_state r (toFailed err) c
    end in
  record (outboundMeasurements t o) (with_cache c' w).

(** *** Concurrent callers of [ensureFresh]

    Modelled from the spec: one task per inbound request (section 5). A
    caller is about to call [ensureFresh], is performing the fetch, is
    waiting for the fetch of another caller, or has its result. *)
Inductive Caller : Type :=
| Idle (r : ref) (t : CommandType)
| Fetching (r : ref) (t : CommandType) (k : FetchKind)
| Waiting (r : ref) (t : CommandType)
| Returned (r : ref) (t : CommandType) (result : option error).

Record Flight : Type := mkFlight {
  world : World;
  callers : list Caller
}.

(** What the scheduler and the upstream origin decide. *)
Inductive Action : Type :=
| Call (i : nat)
| Complete (i : nat) (o : FetchOutcome).

(** "then wakes all waiters with the same result" *)
Definition wake (r : ref) (result : option error) (c : Caller) : Caller :=
  match c with
  | Waiting r' t => if decide (r' = r) then Returned r' t result else c
  | _ => c
  end.

Definition enter (i : nat) (r : ref) (t : CommandType) (s : Flight) : Flight :=
  match beginRefresh r (world s) with
  | Some (Join, w) =>
      {| world := w; callers := <[i := Waiting r t]> (callers s) |}
  | Some (Start k, w) =>
      {| world := w; callers := <[i := Fetching r t k]> (callers s) |}
  | None => s
  end.

(** One atomic step. A caller that has returned may call again (a later
    request); a waiting caller is blocked; only the refresher completes
    its fetch. *)
Definition flight_step (a : Action) (s : Flight) : Flight :=
  match a with
  | Call i =>
      match callers s !! i with
      | Some (Idle r t) => enter i r t s
      | Some (Returned r t _) => enter i r t s
      | _ => s
      end
  | Complete i o =>
      match callers s !! i with
      | Some (Fetching r t k) =>
          {| world := finishRefresh r t o (world s);
             callers := <[i := Returned r t (fetchError o)]>
                          (wake r (fetchError o) <$> callers s) |}
      | _ => s
      end
  end.

Definition flight_run (schedule : list Action) (s : Flight) : Flight :=
  foldl (λ s a, flight_step a s) s schedule.

Definition is_fetching (r : ref) (c : Caller) : bool :=
  match c with
  | Fetching r' _ _ => if decide (r' = r) then true else false
  | _ => false
  end.

Definition is_waiting (r : ref) (c : Caller) : bool :=
  match c with
  | Waiting r' _ => if decide (r' = r) then true else false
  | _ => false
  end.

(** The number of refreshes of entry [r] in flight. *)
Definition in_flight (r : ref) (s : Flight) : nat :=
  count_true (is_fetching r) (callers s).

Definition state_of (r : ref) (w : World) : option State :=
  state <$> heap (cache w) !! r.

(** A start state: every caller is about to call, no refresh is under
    way. *)
Definition quiescent (s : Flight) : Prop :=
  Forall (λ c, ∃ r t, c = Idle r t) (callers s) ∧
  Forall (λ e, state e ≠ Refreshing) (heap (cache (world s))).

Definition reachable (s0 s : Flight) : Prop :=
  ∃ schedule, s = flight_run schedule s0.

Definition is_fetching_any (c : Caller) : bool :=
  match c with Fetching _ _ _ => true | _ => false end.

(** The number of upstream fetches under way, over all entries. *)
Definition fetching_total (s : Flight) : nat :=
  count_true is_fetching_any (callers s).

(** What every state reachable from a quiescent one satisfies: an entry has
    at most one refresher; an entry with a refresher or with a waiter is in
    state [Refreshing]; and an entry in state [Refreshing] has a refresher
    (so a waiter never waits for nobody). *)
Definition flight_inv (s : Flight) : Prop :=
  (∀ i j r t t' k k',
     callers s !! i = Some (Fetching r t k) →
     callers s !! j = Some (Fetching r t' k') → i = j) ∧
  (∀ i r t k, callers s !! i = Some (Fetching r t k) →
              state_of r (world s) = Some Refreshing) ∧
  (∀ i r t, callers s !! i = Some (Waiting r t) →
            state_of r (world s) = Some Refreshing) ∧
  (∀ r, state_of r (world s) = Some Refreshing →
        ∃ i t k, callers s !! i = Some (Fetching r t k)).

(** The transitions of section 4.3: a refresh starts from any state but
    [Refreshing], and ends in [Fresh] or in [Failed]. *)
Definition refresh_transition (a b : State) : Prop :=
  (a ≠ Refreshing ∧ b = Refreshing) ∨
  (a = Refreshing ∧ (b = Fresh ∨ b = Failed)).

Definition is_outbound (m : Measurement) : Prop :=
  measure m = OutboundCommandCount ∨
  measure m = OutboundCommandProcessingTime.

(** Book-keeping between two states: the measurements added since [s0] are
    outbound ones with the two outbound tag keys, and each upstream fetch
    started since [s0] is either still under way or has emitted exactly one
    count and one latency measurement. *)
Definition accounted (s0 s : Flight) : Prop :=
  (∃ added,
     stats (world s) = (stats (world s0) ++ added)%list ∧
     Forall (λ m, is_outbound m ∧
                  tagKeys m = [CommandTypeKey; CommandCanonicalStatusKey])
            added) ∧
  (count_of (stats (world s)) OutboundCommandCount +
     fetch_count (world s0) + fetching_total s
   = count_of (stats (world s0)) OutboundCommandCount +
     fetch_count (world s) + fetching_total s0)%nat ∧
  (count_of (stats (world s)) OutboundCommandProcessingTime +
     fetch_count (world s0) + fetching_total s
   = count_of (stats (world s0)) OutboundCommandProcessingTime +
     fetch_count (world s) + fetching_total s0)%nat.

(** End-to-end scenario 3 of section 8: a cache that has seen one
    repository and never fetched it, and [n] requests for it arriving
    together. *)
Definition unseen_repo : World :=
  with_cache
    {| registry := {[ "org/repo" := 0%nat ]};
       heap := [ {| key := "org/repo"; localPath := "/cache/org/repo";
                    state := Uninitialized; lastRefreshTime := None;
                    lastRefreshError := None |} ];
       disk := {[ "/cache/org/repo" := 0%nat ]} |}
    emptyWorld.

Definition stampede (n : nat) : Flight :=
  {| world := unseen_repo; callers := replicate n (Idle 0 UploadPack) |}.

Definition fetched (err : option error) : FetchOutcome :=
  {| fetchError := err; finishedAt := 1000; elapsed := 250 |}.

(** ** Protocol Front Door *)

Record Outcome : Type := mkOutcome {
  responseBody : option string;
  canonicalStatus : CanonicalStatus;
  cacheState : CacheState
}.

(** The two inbound measurements of one request. *)
Definition inboundMeasurements (t : CommandType) (out : Outcome)
           (latency : Z) : list Measurement :=
  [ {| measure := InboundCommandCount;
       tags := [(CommandTypeKey, OfType t);
                (CommandCanonicalStatusKey, OfStatus (canonicalStatus out));
                (CommandCacheStateKey, OfCache (cacheState out))];
       value := 1 |};
    {| measure := InboundCommandProcessingTime;
       tags := [(CommandTypeKey, OfType t);
                (CommandCanonicalStatusKey, OfStatus (canonicalStatus out));
                (CommandCacheStateKey, OfCache (cacheState out))];
       value := latency |} ].

Section FrontDoor.

(** The embedder's hooks and the two collaborators the Front Door
    drives: the Command Executor (which reads the mirror and knows which
    attempt it is making) and the upstream origin (the outcome of its
    n-th call, and its answer to a forwarded push). *)
Variable localDiskPath : CanonicalRepoURL → string.
Variable canonicalize : string → string + string.
Variable executor : Command → Cache → nat → ExecResult.
Variable origin : nat → FetchOutcome.
Variable push : CanonicalRepoURL → string → string + string.

Definition runExecutor (cmd : Command) (r : ref) (attempt : nat)
           (w : World) : ExecResult * World :=
  let res := executor cmd (cache w) attempt in
  (res, note (CallExecutor r attempt res) w).

(** The upstream fetch of entry [r] that is under way: the last one
    started, by its position among the upstream calls (counted from
    [i]). *)
Fixpoint last_fetch (r : ref) (calls : list UpstreamCall) (i : nat)
  : option nat :=
  match calls with
  | [] => None
  | c :: rest =>
      match last_fetch r rest (S i) with
      | Some j => Some j
      | None =>
          match c with
          | UpFetch r' _ => if decide (r' = r) then Some i else None
          | UpForward _ _ => None
          end
      end
  end.

(** Modelled from the spec: [ensureFresh(entry) -> error] of section
    4.3 as one request sees it. A caller that becomes the refresher
    performs the fetch and completes it. A caller that finds the entry
    [Refreshing] "waits for the in-flight refresh and then inherits its
    result ... rather than issuing a second upstream fetch": it starts
    no fetch and records nothing, and the entry is left to the
    refresher. *)
Definition ensureFresh (r : ref) (t : CommandType) (why : Cause)
           (w : World) : option error * World :=
  let w0 := note (CallEnsureFresh r why) w in
  match beginRefresh r w0 with
  | Some (Start k, w1) =>
      let o := origin (length (upstream w0)) in
      (fetchError o, finishRefresh r t o w1)
  | Some (Join, w1) =>
      match last_fetch r (upstream w1) 0 with
      | Some i => (fetchError (origin i), w1)
      | None => (Some "no refresh in flight", w1)
      end
  | None => (Some "no such entry", w0)
  end.

Definition succeed (b : string) (cs : CacheState) (w : World)
  : Outcome * World :=
  ({| responseBody := Some b; canonicalStatus := Success;
      cacheState := cs |}, w).

(** "surfaced ... via an error-reporting hook with the original request
    and error, then a generic failure status is returned" *)
Definition fail (st : CanonicalStatus) (cs : CacheState) (e : error)
           (w : World) : Outcome * World :=
  ({| responseBody := None; canonicalStatus := st; cacheState := cs |},
   report e w).

Definition is_stale (r : ref) (c : Cache) : bool :=
  match heap c !! r with
  | Some e => bool_decide (lastRefreshTime e = None)
  | None => true
  end.

(** Modelled from the spec: what the Front Door does on a "missing
    object" condition (section 4.4): it "triggers exactly one ensureFresh
    cycle, and retries the command once. A second miss after a refresh is
    a hard error". A refresh that fails is reported; the retry then runs
    against the last data the mirror has. *)
Definition retryAfterMiss (cmd : Command) (r : ref) (w : World)
  : Outcome * World :=
  let '(second, w4) := ensureFresh r (type cmd) BecauseMissingObject w in
  let w5 := match second with
            | Some e => report e w4
            | None => w4
            end in
  let '(res', w6) := runExecutor cmd r 1 w5 in
  match res' with
  | Output b => succeed b Miss w6
  | MissingObject =>
      fail UpstreamError Miss "object missing after refresh" w6
  | ExecFailure e => fail InternalError Miss e w6
  end.

(** Modelled from the spec: the Executor runs against the mirror (section
    4.4) and its output is the response; a local failure is an internal
    error. *)
Definition serveFromMirror (cmd : Command) (r : ref) (cs : CacheState)
           (w : World) : Outcome * World :=
  let '(res, w3) := runExecutor cmd r 0 w in
  match res with
  | Output b => succeed b cs w3
  | ExecFailure e => fail InternalError cs e w3
  | MissingObject => retryAfterMiss cmd r w3
  end.

(** Modelled from the spec: the read path of sections 4.1 and 4.2. The
    entry is resolved; "an entry is considered stale if no successful
    refresh has completed", and a stale entry is refreshed first; if that
    refresh fails there is no data to serve and the request fails. *)
Definition serveRead (cmd : Command) (w : World) : Outcome * World :=
  let '(r, c) := resolve localDiskPath (targetURL cmd) (cache w) in
  let w1 := with_cache c w in
  let stale := is_stale r c in
  let '(first, w2) :=
    if stale then ensureFresh r (type cmd) BecauseStale w1
    else (None, w1) in
  match first with
  | Some e => fail UpstreamError Miss e w2
  | None => serveFromMirror cmd r (if stale then Miss else Hit) w2
  end.

(** Modelled from the spec: the write path of section 4.1, "does not
    read from or write to the local mirror; forwards the request
    verbatim to the upstream origin and relays the response". *)
Definition serveWrite (cmd : Command) (w : World) : Outcome * World :=
  let w1 := call_upstream (UpForward (targetURL cmd) (payload cmd)) w in
  match push (targetURL cmd) (payload cmd) with
  | inl resp => succeed resp Bypass w1
  | inr e => fail UpstreamError Bypass e w1
  end.

Definition dispatch (cmd : Command) (w : World) : Outcome * World :=
  match type cmd with
  | ReceivePack => serveWrite cmd w
  | InfoRefs => serveRead cmd w
  | UploadPack => serveRead cmd w
  end.

(** Modelled from the spec: one inbound request through the Front Door
    (section 4.1): the path is canonicalized ("fails with a client
    error if canonicalization rejects the input"), the command is
    served, and the inbound measurements are emitted with the final
    status and cache outcome. *)
Definition frontDoor (t : CommandType) (path body : string) (latency : Z)
           (w : World) : Outcome * World :=
  let '(out, w') :=
    match canonicalize path with
    | inr e =>
        ({| responseBody := None; canonicalStatus := ClientError;
            cacheState := Bypass |}, w)
    | inl u =>
        dispatch {| type := t; targetURL := u; payload := body |} w
    end in
  (out, record (inboundMeasurements t out latency) w').

End FrontDoor.

(** The measurements added between two worlds are outbound ones. *)
Definition only_outbound_added (w w' : World) : Prop :=
  ∃ mid, stats w' = (stats w ++ mid)%list ∧ Forall is_outbound mid.

(** An Executor that never finds the object, and an origin whose fetches
    succeed: the simulation of section 8, "an Executor reporting
    MissingObject twice in a row". *)
Definition always_missing : Command → Cache → nat → ExecResult :=
  λ _ _ _, MissingObject.

Definition healthy_origin : nat → FetchOutcome := λ _, fetched None.

End core.

(** * Properties of the entry point [goblet-server/main.go] *)

Lemma contains_app_l (s post : string) : contains s (s +:+ post).
Proof. exists "", post. reflexivity. Qed.

Lemma contains_cons (s t : string) (c : ascii) :
  contains s t → contains s (String c t).
Proof. intros (pre & post & ->). exists (String c pre), post. reflexivity. Qed.

Lemma string_app_assoc (a b c : string) : (a +:+ b) +:+ c = a +:+ (b +:+ c).
Proof.
  induction a as [|x a IH]; [reflexivity |].
  change (String x ((a +:+ b) +:+ c) = String x (a +:+ (b +:+ c))).
  by rewrite IH.
Qed.

Lemma contains_app_r (s p t : string) : contains s t → contains s (p +:+ t).
Proof.
  intros (pre & post & ->). exists (p +:+ pre), post.
  by rewrite string_app_assoc.
Qed.

Ltac find_in_line :=
  repeat first [ apply contains_app_l | apply contains_app_r ].

(** The line that [rl] hands to [log.Printf], verb by verb. *)
Lemma rl_line (Quote : string → string) (Duration_String : Z → string)
      (dump : string) (status requestSize responseSize latency : Z) :
  fmt.Sprintf Quote Duration_String
    "%q %d reqsize: %d, respsize %d, latency: %v"
    [fmt.Bytes dump; fmt.Int status; fmt.Int requestSize;
     fmt.Int responseSize; fmt.Duration latency]
  = Quote dump +:+ " " +:+ pretty status +:+ " reqsize: " +:+
    pretty requestSize +:+ ", respsize " +:+ pretty responseSize +:+
    ", latency: " +:+ Duration_String latency +:+ "".
Proof. cbn -[pretty String.append]. reflexivity. Qed.

(** C10. The default request logger writes one line, holding the status,
    the request size, the response size and the latency, exactly when
    [httputil.DumpRequest] succeeds; when the dump fails it returns with the
    log untouched, whatever the error was. *)
Theorem rl_logs_iff_dump_succeeds
        (Quote : string → string) (Duration_String : Z → string)
        (DumpRequest : http.Request → bool → string + string)
        (r : http.Request) (status requestSize responseSize latency : Z)
        (l : log.Logger) :
  let l' := goblet_server.rl Quote Duration_String DumpRequest r status
              requestSize responseSize latency l in
  (length l' = S (length l) ↔ ∃ dump, DumpRequest r false = inl dump) ∧
  match DumpRequest r false with
  | inl dump =>
      ∃ line, l' = (l ++ [line])%list ∧
              contains (pretty status) line ∧
              contains (pretty requestSize) line ∧
              contains (pretty responseSize) line ∧
              contains (Duration_String latency) line
  | inr _ => l' = l
  end.
Proof.
  intros l'. subst l'. unfold goblet_server.rl, log.Printf.
  destruct (DumpRequest r false) as [dump|err].
  - rewrite rl_line. split.
    + rewrite length_app, Nat.add_1_r. split; [eauto | reflexivity].
    + eexists; split; [reflexivity |]. repeat split; find_in_line.
  - split; [| reflexivity].
    split; [lia | intros [dump Hd]; discriminate].
Qed.

(** The mux that [main] builds sends the path [/healthz] to the probe. *)
Lemma healthz_route (h : http.Handler) (w : http.ResponseWriter)
      (r : http.Request) :
  http.URL_Path r = "/healthz" →
  http.ServeHTTP [("/healthz", goblet_server.healthz); ("/", h)] w r
  = goblet_server.healthz w r.
Proof.
  intros Hp. unfold http.ServeHTTP, http.ServeMux_Handler. rewrite Hp.
  destruct (http.Method r =? "CONNECT")%string; reflexivity.
Qed.

(** What [main] returns when the views register. *)
Lemma main_started Quote Duration_String DumpRequest CanonicalizeURL
      HTTPHandler view_Register port cacheRoot p :
  goblet_server.main Quote Duration_String DumpRequest CanonicalizeURL
    HTTPHandler view_Register port cacheRoot = inr p →
  config.ErrorReporter (goblet_server.serverConfig p) = None ∧
  goblet_server.mux p =
    [("/healthz", goblet_server.healthz);
     ("/", HTTPHandler (goblet_server.serverConfig p))].
Proof.
  unfold goblet_server.main.
  destruct (view_Register goblet_server.views); [discriminate |].
  intros [= <-]. split; reflexivity.
Qed.

(** C4, as stated, fails: the probe answers three bytes, the two letters
    and a line feed, so the body is not the bare text. *)
Lemma healthz_body_is_not_bare_ok :
  match goblet_server.main id (λ _, "") (λ _ _, inl "") inl (λ _ w _, w)
          (λ _, None) 8080 "/cache" with
  | inr p =>
      http.body (http.ServeHTTP (goblet_server.mux p) http.newResponseWriter
                   (http.mkRequest "GET" "/healthz" "" "")) ≠ "ok"
  | inl _ => False
  end.
Proof. vm_compute. discriminate. Qed.

(** C4 (amended). For every request whose path is [/healthz], the running
    server sets [Content-Type] to [text/plain], answers with status 200 and
    appends exactly the text "ok" followed by one line feed to the body. *)
Theorem healthz_responds_ok_newline
        Quote Duration_String DumpRequest CanonicalizeURL HTTPHandler
        view_Register (port : Z) (cacheRoot : string)
        (p : goblet_server.Process) (w0 : http.ResponseWriter)
        (r : http.Request) :
  goblet_server.main Quote Duration_String DumpRequest CanonicalizeURL
    HTTPHandler view_Register port cacheRoot = inr p →
  http.URL_Path r = "/healthz" →
  http.status w0 = None →
  let w := http.ServeHTTP (goblet_server.mux p) w0 r in
  http.Header w !! "Content-Type" = Some ["text/plain"] ∧
  http.status w = Some 200 ∧
  http.body w = http.body w0 +:+ String "o" (String "k" (String "010" "")).
Proof.
  intros Hmain Hpath Hfresh w. subst w.
  destruct (main_started _ _ _ _ _ _ _ _ _ Hmain) as [_ Hmux].
  rewrite Hmux, (healthz_route _ _ _ Hpath).
  unfold goblet_server.healthz, http.Write, http.Header_Set.
  rewrite Hfresh; cbn.
  split; [apply lookup_insert_eq | split; reflexivity].
Qed.

Lemma healthz_responds_ok_newline_witness :
  ∃ p,
    goblet_server.main id (λ _, "") (λ _ _, inl "") inl (λ _ w _, w)
      (λ _, None) 8080 "/cache" = inr p ∧
    http.body (http.ServeHTTP (goblet_server.mux p) http.newResponseWriter
                 (http.mkRequest "GET" "/healthz" "" ""))
    = String "o" (String "k" (String "010" "")).
Proof.
  eexists. split; [reflexivity |].
  exact (proj2 (proj2 (healthz_responds_ok_newline
           id (λ _, "") (λ _ _, inl "") inl (λ _ w _, w) (λ _, None)
           8080 "/cache" _ http.newResponseWriter
           (http.mkRequest "GET" "/healthz" "" "")
           eq_refl eq_refl eq_refl))).
Defined.

(** C9. [er] is declared and never assigned, so whatever the flags are, the
    [ServerConfig] that a started server hands to [goblet.HTTPHandler] has a
    nil [ErrorReporter]. *)
Theorem main_passes_nil_ErrorReporter
        Quote Duration_String DumpRequest CanonicalizeURL HTTPHandler
        view_Register (port : Z) (cacheRoot : string)
        (p : goblet_server.Process) :
  goblet_server.main Quote Duration_String DumpRequest CanonicalizeURL
    HTTPHandler view_Register port cacheRoot = inr p →
  ∃ cfg,
    http.match_exact (goblet_server.mux p) "/" = Some (HTTPHandler cfg) ∧
    cfg = goblet_server.serverConfig p ∧
    config.ErrorReporter cfg = None ∧
    config.LocalDiskCacheRoot cfg = cacheRoot.
Proof.
  intros Hmain.
  destruct (main_started _ _ _ _ _ _ _ _ _ Hmain) as [Her Hmux].
  exists (goblet_server.serverConfig p). rewrite Hmux.
  repeat split; [exact Her |].
  revert Hmain. unfold goblet_server.main.
  destruct (view_Register goblet_server.views); [discriminate |].
  by intros [= <-].
Qed.

Lemma main_passes_nil_ErrorReporter_witness :
  ∃ p cfg,
    goblet_server.main id (λ _, "") (λ _ _, inl "") inl (λ _ w _, w)
      (λ _, None) 8080 "/cache" = inr p ∧
    cfg = goblet_server.serverConfig p ∧
    config.ErrorReporter cfg = None.
Proof.
  eexists.
  destruct (main_passes_nil_ErrorReporter
              id (λ _, "") (λ _ _, inl "") inl (λ _ w _, w) (λ _, None)
              8080 "/cache" _ eq_refl) as (cfg & _ & Hcfg & Her & _).
  exists cfg. split; [reflexivity | split; assumption].
Defined.

(** * Properties of the Repository Cache Manager *)

Section CacheManagerFacts.

Import core.

Variable localDiskPath : string → string.
Variable canonicalize : string → string + string.

Abbreviation resolve := (core.resolve localDiskPath).
Abbreviation race_step := (core.race_step localDiskPath canonicalize).
Abbreviation race_run := (core.race_run localDiskPath canonicalize).
Abbreviation race_inv := (core.race_inv localDiskPath).

Lemma resolve_hit (u : string) (c : Cache) (r : nat) :
  registry c !! u = Some r → resolve u c = (r, c).
Proof. intros H. unfold core.resolve. by rewrite H. Qed.

Lemma resolve_registers (u : string) (c : Cache) :
  registry (resolve u c).2 !! u = Some (resolve u c).1.
Proof.
  unfold core.resolve. destruct (registry c !! u) eqn:E; cbn; [done |].
  apply lookup_insert_eq.
Qed.

Lemma resolve_idempotent (u : string) (c : Cache) :
  resolve u (resolve u c).2 = resolve u c.
Proof.
  rewrite (resolve_hit _ _ _ (resolve_registers u c)).
  by destruct (resolve u c).
Qed.

Lemma resolve_creates (u : string) (c : Cache) :
  registry c !! u = None →
  (resolve u c).1 = length (heap c) ∧
  heap (resolve u c).2 !! (resolve u c).1 = Some (core.newEntry localDiskPath u) ∧
  is_Some (disk (resolve u c).2 !! localDiskPath u) ∧
  (∀ v, v ≠ u → registry (resolve u c).2 !! v = registry c !! v) ∧
  (∀ r e, heap c !! r = Some e → heap (resolve u c).2 !! r = Some e) ∧
  (∀ d, is_Some (disk c !! d) → is_Some (disk (resolve u c).2 !! d)).
Proof.
  intros H. unfold core.resolve. rewrite H. cbn.
  split; [done |]. split.
  { rewrite lookup_app_r, Nat.sub_diag; [done | lia]. }
  split.
  { destruct (disk c !! localDiskPath u) eqn:E; [by rewrite E |].
    rewrite lookup_insert_eq. eauto. }
  split; [intros v Hv; by rewrite lookup_insert_ne |].
  split.
  { intros r e Hr. apply lookup_app_l_Some. exact Hr. }
  intros d Hd. destruct (disk c !! localDiskPath u) eqn:E; [done |].
  destruct (decide (localDiskPath u = d)) as [->|Hne].
  - rewrite lookup_insert_eq. eauto.
  - by rewrite lookup_insert_ne.
Qed.

Lemma race_init_inv (inputs : list string) :
  race_inv (core.race_init inputs).
Proof.
  split; [| split].
  - intros i u r H. cbn in H. rewrite list_lookup_fmap in H.
    destruct (inputs !! i); discriminate.
  - intros u. reflexivity.
  - intros u r H. cbn in H. by rewrite lookup_empty in H.
Qed.

Lemma race_step_inv (i : nat) (s : Race) :
  race_inv s → race_inv (race_step i s).
Proof.
  intros (Hres & Hcnt & Hreg). unfold core.race_step.
  destruct (resolvers s !! i) as [[input|u|u r|e]|] eqn:Ei;
    try (split; [| split]; assumption).
  - (* the lookup *)
    destruct (canonicalize input) as [u|e]; (split; [| split]); cbn;
      try assumption.
    + intros j v r Hj.
      destruct (decide (i = j)) as [->|Hne].
      * rewrite list_lookup_insert_eq in Hj by (by eapply lookup_lt_Some).
        destruct (registry (shared s) !! u) eqn:Eu; congruence.
      * rewrite list_lookup_insert_ne in Hj by done. eauto.
    + intros j v r Hj.
      destruct (decide (i = j)) as [->|Hne].
      * rewrite list_lookup_insert_eq in Hj by (by eapply lookup_lt_Some).
        discriminate.
      * rewrite list_lookup_insert_ne in Hj by done. eauto.
  - (* the atomic insert-if-absent *)
    destruct (registry (shared s) !! u) as [r|] eqn:Eu.
    + rewrite (resolve_hit _ _ _ Eu). (split; [| split]); cbn;
        try assumption.
      intros j v r' Hj.
      destruct (decide (i = j)) as [->|Hne].
      * rewrite list_lookup_insert_eq in Hj by (by eapply lookup_lt_Some).
        congruence.
      * rewrite list_lookup_insert_ne in Hj by done. eauto.
    + pose proof (resolve_creates u (shared s) Eu)
        as (Hr & Hnew & Hdir & Hother & Hheap & Hdisk).
      pose proof (resolve_registers u (shared s)) as Hme.
      destruct (resolve u (shared s)) as [r c'] eqn:Er. cbn in *.
      split; [| split]; cbn.
      * intros j v r' Hj.
        destruct (decide (i = j)) as [->|Hne].
        -- rewrite list_lookup_insert_eq in Hj by (by eapply lookup_lt_Some).
           congruence.
        -- rewrite list_lookup_insert_ne in Hj by done.
           pose proof (Hres _ _ _ Hj) as Hv.
           destruct (decide (v = u)) as [->|Hvu]; [congruence |].
           by rewrite Hother.
      * intros v. specialize (Hcnt v). unfold created in *. cbn.
        rewrite filter_app, length_app, Hcnt, filter_cons.
        destruct (decide (u = v)) as [<-|Hvu].
        -- by rewrite Eu, Hme.
        -- rewrite Hother by done. cbn.
           destruct (registry (shared s) !! v); lia.
      * intros v r' Hv.
        destruct (decide (v = u)) as [->|Hvu].
        -- exists (core.newEntry localDiskPath u).
           assert (r' = r) as -> by congruence. by repeat split.
        -- rewrite Hother in Hv by done.
           destruct (Hreg _ _ Hv) as (e & He & Hk & Hp & Hd).
           exists e. repeat split; eauto.
Qed.

Lemma race_run_inv (schedule : list nat) (s : Race) :
  race_inv s → race_inv (race_run schedule s).
Proof.
  revert s. induction schedule as [|i schedule IH]; intros s Hs; [done |].
  apply (IH (race_step i s)), race_step_inv, Hs.
Qed.


End CacheManagerFacts.

(** A race that two requests for one URL both enter: each sees no entry,
    both go on to insert, the first insert wins and the second observes
    it. *)
Example race_two_creators :
  let s := core.race_run (λ u, "/cache/" +:+ u) inl [0; 1; 0; 1]%nat
             (core.race_init ["org/repo"; "org/repo"]) in
  core.resolvers s = [core.Resolved "org/repo" 0; core.Resolved "org/repo" 0]
  ∧ core.created "org/repo" s = 1%nat
  ∧ length (core.heap (core.shared s)) = 1%nat.
Proof. vm_compute. repeat split. Qed.

(** * Properties of the Upstream Fetch Coordinator *)

Section FetchCoordinatorFacts.

Import core.

Lemma beginRefresh_cases (r : nat) (w : World) :
  match beginRefresh r w with
  | None => heap (cache w) !! r = None
  | Some (Join, w') => w' = w ∧ state_of r w = Some Refreshing
  | Some (Start k, w') =>
      ∃ e, heap (cache w) !! r = Some e ∧ state e ≠ Refreshing ∧
           k = (if decide (state e = Uninitialized) then FullClone
                else Incremental) ∧
           w' = call_upstream (UpFetch r k)
                  (with_cache (set_state r toRefreshing (cache w)) w)
  end.
Proof.
  unfold beginRefresh, state_of.
  destruct (heap (cache w) !! r) as [e|] eqn:E; [| done].
  destruct (decide (state e = Refreshing)) as [Hs|Hs].
  - split; [done | cbn; by f_equal].
  - exists e. by repeat split.
Qed.

Lemma state_of_started_eq (r : nat) (w : World) (c : UpstreamCall)
      (e : MirrorEntry) :
  heap (cache w) !! r = Some e →
  state_of r (call_upstream c (with_cache (set_state r toRefreshing (cache w)) w))
  = Some Refreshing.
Proof.
  intros E. unfold state_of; cbn. by rewrite list_lookup_alter_eq, E.
Qed.

Lemma state_of_started_ne (r r' : nat) (w : World) (c : UpstreamCall) :
  r ≠ r' →
  state_of r' (call_upstream c (with_cache (set_state r toRefreshing (cache w)) w))
  = state_of r' w.
Proof.
  intros Hne. unfold state_of; cbn. by rewrite list_lookup_alter_ne.
Qed.

Lemma heap_finishRefresh (r : nat) (t : CommandType) (o : FetchOutcome)
      (w : World) :
  heap (cache (finishRefresh r t o w))
  = alter (match fetchError o with
           | None => toFresh (finishedAt o)
           | Some err => toFailed err
           end) r (heap (cache w)).
Proof.
  unfold finishRefresh.
  destruct (fetchError o); [reflexivity |].
  destruct (heap (cache w) !! r); reflexivity.
Qed.

Lemma state_of_finished_eq (r : nat) (t : CommandType) (o : FetchOutcome)
      (w : World) (a : State) :
  state_of r w = Some a →
  state_of r (finishRefresh r t o w)
  = Some (match fetchError o with None => Fresh | Some _ => Failed end).
Proof.
  unfold state_of. rewrite heap_finishRefresh, list_lookup_alter_eq.
  destruct (heap (cache w) !! r); [| discriminate]. intros _.
  by destruct (fetchError o).
Qed.

Lemma state_of_finished_ne (r r' : nat) (t : CommandType) (o : FetchOutcome)
      (w : World) :
  r ≠ r' → state_of r' (finishRefresh r t o w) = state_of r' w.
Proof.
  intros Hne. unfold state_of.
  by rewrite heap_finishRefresh, list_lookup_alter_ne.
Qed.

Lemma wake_fetching (r : nat) (res : option string) (c : Caller)
      (r' : nat) (t : CommandType) (k : FetchKind) :
  wake r res c = Fetching r' t k ↔ c = Fetching r' t k.
Proof.
  destruct c as [| | r0 t0 |]; cbn; try done.
  destruct (decide (r0 = r)); split; discriminate.
Qed.

Lemma wake_waiting (r : nat) (res : option string) (c : Caller)
      (r' : nat) (t : CommandType) :
  wake r res c = Waiting r' t → c = Waiting r' t ∧ r' ≠ r.
Proof.
  destruct c as [| | r0 t0 |]; cbn; try done.
  destruct (decide (r0 = r)); [discriminate |].
  intros [= <- <-]. done.
Qed.

Lemma quiescent_inv (s : Flight) : quiescent s → flight_inv s.
Proof.
  intros [Hc Hh].
  assert (Hidle : ∀ i c, callers s !! i = Some c → ∃ r t, c = Idle r t).
  { intros i c Hi. exact (Forall_lookup_1 _ _ _ _ Hc Hi). }
  split; [| split; [| split]].
  - intros i j r t t' k k' Hi _.
    destruct (Hidle _ _ Hi) as (? & ? & ?); discriminate.
  - intros i r t k Hi.
    destruct (Hidle _ _ Hi) as (? & ? & ?); discriminate.
  - intros i r t Hi.
    destruct (Hidle _ _ Hi) as (? & ? & ?); discriminate.
  - intros r Hr. unfold state_of in Hr.
    destruct (heap (cache (world s)) !! r) as [e|] eqn:E; [| discriminate].
    pose proof (Forall_lookup_1 _ _ _ _ Hh E) as Hne. cbn in Hr. congruence.
Qed.

(** A caller that is not itself fetching enters [ensureFresh]. *)
Lemma enter_inv (i r : nat) (t : CommandType) (s : Flight) (c : Caller) :
  flight_inv s →
  callers s !! i = Some c →
  is_fetching_any c = false →
  flight_inv (enter i r t s).
Proof.
  intros (Huniq & Hfet & Hwait & Hrun) Hi Hc. unfold enter.
  pose proof (beginRefresh_cases r (world s)) as Hb.
  destruct (beginRefresh r (world s)) as [[[|k] w']|];
    [| | by repeat split].
  - (* joins the refresh in flight *)
    destruct Hb as [-> Hst]. split; [| split; [| split]]; cbn.
    + intros a b r' t1 t2 k1 k2 Ha Hb.
      apply list_lookup_insert_Some in Ha as [(_ & ? & _)|(_ & Ha)];
        [discriminate |].
      apply list_lookup_insert_Some in Hb as [(_ & ? & _)|(_ & Hb)];
        [discriminate |].
      eauto.
    + intros a r' t1 k1 Ha.
      apply list_lookup_insert_Some in Ha as [(_ & ? & _)|(_ & Ha)];
        [discriminate | eauto].
    + intros a r' t1 Ha.
      apply list_lookup_insert_Some in Ha as [(_ & [= <- <-] & _)|(_ & Ha)];
        [done | eauto].
    + intros r' Hr'. destruct (Hrun _ Hr') as (a & t1 & k1 & Ha).
      exists a, t1, k1. rewrite list_lookup_insert_ne; [done |].
      intros <-. rewrite Hi in Ha. injection Ha as ->. discriminate.
  - (* becomes the refresher *)
    destruct Hb as (e & He & Hne & _ & ->).
    assert (Hold : ∀ a r' t1 k1,
               callers s !! a = Some (Fetching r' t1 k1) → r' ≠ r).
    { intros a r' t1 k1 Ha ->. pose proof (Hfet _ _ _ _ Ha) as Hst.
      unfold state_of in Hst. rewrite He in Hst. cbn in Hst. congruence. }
    split; [| split; [| split]]; cbn.
    + intros a b r' t1 t2 k1 k2 Ha Hb.
      apply list_lookup_insert_Some in Ha as [(<- & Ea & _)|(Hia & Ha)];
        apply list_lookup_insert_Some in Hb as [(<- & Eb & _)|(Hib & Hb)];
        try done.
      * injection Ea as <- <- <-. by destruct (Hold _ _ _ _ Hb).
      * injection Eb as <- <- <-. by destruct (Hold _ _ _ _ Ha).
      * eauto.
    + intros a r' t1 k1 Ha.
      apply list_lookup_insert_Some in Ha as [(_ & [= <- <- <-] & _)|(_ & Ha)].
      * by eapply state_of_started_eq.
      * rewrite state_of_started_ne; [eauto |].
        intros <-. by destruct (Hold _ _ _ _ Ha).
    + intros a r' t1 Ha.
      apply list_lookup_insert_Some in Ha as [(_ & ? & _)|(_ & Ha)];
        [discriminate |].
      pose proof (Hwait _ _ _ Ha) as Hst.
      rewrite state_of_started_ne; [done |].
      intros <-. unfold state_of in Hst. rewrite He in Hst. cbn in Hst.
      congruence.
    + intros r' Hr'. destruct (decide (r = r')) as [<-|Hrr].
      * exists i, t, k. apply list_lookup_insert_eq.
        by eapply lookup_lt_Some.
      * rewrite state_of_started_ne in Hr' by done.
        destruct (Hrun _ Hr') as (a & t1 & k1 & Ha).
        exists a, t1, k1. rewrite list_lookup_insert_ne; [done |].
        intros <-. rewrite Hi in Ha. injection Ha as ->. discriminate.
Qed.

(** The refresher ends its fetch and wakes the waiters. *)
Lemma complete_inv (i r : nat) (t : CommandType) (k : FetchKind)
      (o : FetchOutcome) (s : Flight) :
  flight_inv s →
  callers s !! i = Some (Fetching r t k) →
  flight_inv
    {| world := finishRefresh r t o (world s);
       callers := <[i := Returned r t (fetchError o)]>
                    (wake r (fetchError o) <$> callers s) |}.
Proof.
  intros (Huniq & Hfet & Hwait & Hrun) Hi.
  pose proof (Hfet _ _ _ _ Hi) as Hst.
  assert (Hother : ∀ a r' t1 k1,
             a ≠ i → callers s !! a = Some (Fetching r' t1 k1) → r ≠ r').
  { intros a r' t1 k1 Hai Ha <-. apply Hai. eapply Huniq; eauto. }
  assert (Hlook : ∀ a x,
             (wake r (fetchError o) <$> callers s) !! a = Some x →
             ∃ c, callers s !! a = Some c ∧ x = wake r (fetchError o) c).
  { intros a x Ha. rewrite list_lookup_fmap in Ha.
    destruct (callers s !! a) as [c|]; [| discriminate].
    injection Ha as <-. eauto. }
  split; [| split; [| split]]; cbn.
  - intros a b r' t1 t2 k1 k2 Ha Hb.
    apply list_lookup_insert_Some in Ha as [(_ & ? & _)|(_ & Ha)];
      [discriminate |].
    apply list_lookup_insert_Some in Hb as [(_ & ? & _)|(_ & Hb)];
      [discriminate |].
    destruct (Hlook _ _ Ha) as (ca & Hca & Ea).
    destruct (Hlook _ _ Hb) as (cb & Hcb & Eb).
    symmetry in Ea, Eb. apply wake_fetching in Ea, Eb. subst. eauto.
  - intros a r' t1 k1 Ha.
    apply list_lookup_insert_Some in Ha as [(_ & ? & _)|(Hia & Ha)];
      [discriminate |].
    destruct (Hlook _ _ Ha) as (ca & Hca & Ea).
    symmetry in Ea. apply wake_fetching in Ea. subst.
    rewrite state_of_finished_ne; [eauto |].
    eapply Hother; eauto.
  - intros a r' t1 Ha.
    apply list_lookup_insert_Some in Ha as [(_ & ? & _)|(Hia & Ha)];
      [discriminate |].
    destruct (Hlook _ _ Ha) as (ca & Hca & Ea).
    symmetry in Ea. apply wake_waiting in Ea as [-> Hne].
    rewrite state_of_finished_ne; [eauto | done].
  - intros r' Hr'. destruct (decide (r = r')) as [<-|Hrr].
    + rewrite (state_of_finished_eq _ _ _ _ _ Hst) in Hr'.
      destruct (fetchError o); discriminate.
    + rewrite state_of_finished_ne in Hr' by done.
      destruct (Hrun _ Hr') as (a & t1 & k1 & Ha).
      exists a, t1, k1.
      rewrite list_lookup_insert_ne.
      * rewrite list_lookup_fmap, Ha. reflexivity.
      * intros <-. rewrite Hi in Ha. by injection Ha as -> _ _.
Qed.

Lemma flight_step_inv (a : Action) (s : Flight) :
  flight_inv s → flight_inv (flight_step a s).
Proof.
  intros Hs. destruct a as [i|i o]; cbn.
  - destruct (callers s !! i) as [[r t|r t k|r t|r t res]|] eqn:Ei;
      try exact Hs; by eapply enter_inv.
  - destruct (callers s !! i) as [[r t|r t k|r t|r t res]|] eqn:Ei;
      try exact Hs. by eapply complete_inv.
Qed.

Lemma flight_run_inv (schedule : list Action) (s : Flight) :
  flight_inv s → flight_inv (flight_run schedule s).
Proof.
  revert s. induction schedule as [|a schedule IH]; intros s Hs; [done |].
  apply (IH (flight_step a s)), flight_step_inv, Hs.
Qed.

Lemma at_most_one {A : Type} (P : A → Prop) `{!∀ x, Decision (P x)}
      (l : list A) :
  (∀ i j x y, l !! i = Some x → l !! j = Some y → P x → P y → i = j) →
  (length (filter P l) ≤ 1)%nat.
Proof.
  induction l as [|a l IH]; intros Hl; [cbn; lia |].
  rewrite filter_cons. destruct (decide (P a)) as [Ha|Ha].
  - destruct (filter P l) as [|b q] eqn:E; [cbn; lia |].
    assert (Hb : b ∈ filter P l) by (rewrite E; left).
    apply list_elem_of_filter in Hb as [Pb Hb].
    apply list_elem_of_lookup in Hb as [j Hj].
    by specialize (Hl 0%nat (S j) a b eq_refl Hj Ha Pb).
  - apply IH. intros i j x y Hi Hj Px Py.
    by injection (Hl (S i) (S j) x y Hi Hj Px Py).
Qed.

Lemma is_fetching_true (r : nat) (c : Caller) :
  is_fetching r c = true → ∃ t k, c = Fetching r t k.
Proof.
  destruct c as [|r' t k| |]; cbn; try discriminate.
  destruct (decide (r' = r)) as [->|]; [eauto | discriminate].
Qed.

Lemma upstream_finishRefresh (r : nat) (t : CommandType) (o : FetchOutcome)
      (w : World) :
  upstream (finishRefresh r t o w) = upstream w.
Proof. reflexivity. Qed.

Lemma upstream_finishRefresh_count (r : nat) (t : CommandType)
      (o : FetchOutcome) (w : World) :
  fetch_count (finishRefresh r t o w) = fetch_count w.
Proof. reflexivity. Qed.

Lemma stampede_quiescent (n : nat) : quiescent (stampede n).
Proof.
  split; cbn.
  - apply Forall_replicate. eauto.
  - repeat constructor. discriminate.
Defined.



Lemma step_transition (s : Flight) (a : Action) (r : nat) (x y : State) :
  flight_inv s →
  state_of r (world s) = Some x →
  state_of r (world (flight_step a s)) = Some y →
  x = y ∨ refresh_transition x y.
Proof.
  intros (Huniq & Hfet & Hwait & Hrun) Hx Hy.
  assert (Henter : ∀ i r0 t,
             state_of r (world (enter i r0 t s)) = Some y →
             x = y ∨ refresh_transition x y).
  { intros i r0 t. unfold enter.
    pose proof (beginRefresh_cases r0 (world s)) as Hb.
    destruct (beginRefresh r0 (world s)) as [[[|k] w']|]; cbn.
    - destruct Hb as [-> _]. intros. left. congruence.
    - destruct Hb as (e & He & Hne & _ & ->).
      destruct (decide (r0 = r)) as [->|Hrr].
      + rewrite (state_of_started_eq _ _ _ _ He). intros [= <-].
        right. left. split; [| done].
        unfold state_of in Hx. rewrite He in Hx. cbn in Hx. congruence.
      + rewrite state_of_started_ne by done. intros. left. congruence.
    - intros. left. congruence. }
  destruct a as [i|i o]; cbn in Hy.
  - destruct (callers s !! i) as [[r0 t|r0 t k|r0 t|r0 t res]|] eqn:Ei;
      eauto; left; congruence.
  - destruct (callers s !! i) as [[r0 t|r0 t k|r0 t|r0 t res]|] eqn:Ei;
      try (left; congruence).
    cbn in Hy. pose proof (Hfet _ _ _ _ Ei) as Hst.
    destruct (decide (r0 = r)) as [->|Hrr].
    + rewrite (state_of_finished_eq _ _ _ _ _ Hst) in Hy.
      right. right. split; [congruence |].
      destruct (fetchError o); injection Hy as <-; auto.
    + rewrite state_of_finished_ne in Hy by done. left. congruence.
Qed.



Lemma count_insert {A : Type} (P : A → bool) (l : list A) (i : nat)
      (x y : A) :
  l !! i = Some y →
  (count_true P (<[i:=x]> l) + Nat.b2n (P y)
   = count_true P l + Nat.b2n (P x))%nat.
Proof.
  unfold count_true. revert i. induction l as [|a l IH]; intros [|i] Hi; try discriminate.
  - injection Hi as ->.
    change (<[0%nat:=x]> (y :: l)) with (x :: l). rewrite !filter_cons.
    destruct (P x), (P y); repeat case_decide; try congruence;
      cbn [length Nat.b2n]; lia.
  - cbn in Hi. specialize (IH i Hi).
    change (<[S i:=x]> (a :: l)) with (a :: <[i:=x]> l).
    rewrite !filter_cons.
    destruct (decide (P a = true)); cbn [length]; lia.
Qed.

Lemma count_fmap {A : Type} (P : A → bool) (f : A → A) (l : list A) :
  (∀ c, P (f c) = P c) → count_true P (f <$> l) = count_true P l.
Proof.
  unfold count_true. intros Hf. induction l as [|a l IH]; [done |].
  rewrite fmap_cons, !filter_cons, Hf.
  destruct (decide (P a = true)); cbn [length]; by rewrite IH.
Qed.

Lemma count_snoc {A : Type} (P : A → bool) (l : list A) (x : A) :
  count_true P (l ++ [x]) = (count_true P l + Nat.b2n (P x))%nat.
Proof.
  unfold count_true. rewrite filter_app, length_app, filter_cons.
  destruct (P x); case_decide; try congruence; reflexivity.
Qed.

Lemma wake_keeps_fetching (r : nat) (res : option string) (c : Caller) :
  is_fetching_any (wake r res c) = is_fetching_any c.
Proof. destruct c as [| |r0 t|]; cbn; try done. by destruct (decide (r0 = r)). Qed.

Lemma count_of_app (ms ms' : list Measurement) (x : goblet.Measure) :
  count_of (ms ++ ms') x = (count_of ms x + count_of ms' x)%nat.
Proof. unfold count_of. by rewrite filter_app, length_app. Qed.

Lemma accounted_refl (s : Flight) : accounted s s.
Proof.
  split; [| split; reflexivity].
  exists []. split; [by rewrite app_nil_r | constructor].
Qed.

Lemma accounted_enter (s0 s : Flight) (i r : nat) (t : CommandType)
      (c : Caller) :
  callers s !! i = Some c →
  is_fetching_any c = false →
  accounted s0 s → accounted s0 (enter i r t s).
Proof.
  intros Hi Hc (Hadd & Hcnt & Hlat). unfold enter.
  pose proof (beginRefresh_cases r (world s)) as Hb.
  destruct (beginRefresh r (world s)) as [[[|k] w']|];
    [| | by repeat split].
  - destruct Hb as [-> _].
    pose proof (count_insert is_fetching_any (callers s) i (Waiting r t) c Hi)
      as Hn. rewrite Hc in Hn. cbn [Nat.b2n is_fetching_any] in Hn.
    split; [exact Hadd |]. unfold fetching_total in *.
    cbn [world callers]. split; lia.
  - destruct Hb as (e & _ & _ & _ & ->).
    pose proof (count_insert is_fetching_any (callers s) i (Fetching r t k) c Hi)
      as Hn. rewrite Hc in Hn. cbn [Nat.b2n is_fetching_any] in Hn.
    assert (Hf : fetch_count
                   (call_upstream (UpFetch r k)
                      (with_cache (set_state r toRefreshing (cache (world s)))
                         (world s)))
                 = S (fetch_count (world s))).
    { unfold fetch_count. cbn [upstream call_upstream with_cache].
      rewrite count_snoc. cbn [Nat.b2n is_fetch]. lia. }
    split; [exact Hadd |]. unfold fetching_total in *.
    cbn [world callers]. rewrite Hf.
    cbn [stats call_upstream with_cache]. split; lia.
Qed.

Lemma accounted_complete (s0 s : Flight) (i r : nat) (t : CommandType)
      (k : FetchKind) (o : FetchOutcome) :
  callers s !! i = Some (Fetching r t k) →
  accounted s0 s →
  accounted s0
    {| world := finishRefresh r t o (world s);
       callers := <[i := Returned r t (fetchError o)]>
                    (wake r (fetchError o) <$> callers s) |}.
Proof.
  intros Hi ((added & Hst & Hall) & Hcnt & Hlat).
  assert (Hw : (wake r (fetchError o) <$> callers s) !! i
               = Some (Fetching r t k)).
  { by rewrite list_lookup_fmap, Hi. }
  pose proof (count_insert is_fetching_any _ i
                (Returned r t (fetchError o)) _ Hw) as Hn.
  rewrite (count_fmap is_fetching_any _ _ (wake_keeps_fetching r _)) in Hn.
  cbn [Nat.b2n is_fetching_any] in Hn.
  assert (Hstats : stats (finishRefresh r t o (world s))
                   = (stats (world s) ++ outboundMeasurements t o)%list)
    by reflexivity.
  split; [| split].
  - exists (added ++ outboundMeasurements t o)%list. cbn [world].
    rewrite Hstats, Hst, app_assoc. split; [done |].
    apply Forall_app. split; [done |].
    constructor; [split; [left; reflexivity | reflexivity] |].
    constructor; [split; [right; reflexivity | reflexivity] | constructor].
  - unfold fetching_total in *. cbn [world callers].
    rewrite Hstats, count_of_app, upstream_finishRefresh_count.
    change (count_of (outboundMeasurements t o) goblet.OutboundCommandCount)
      with 1%nat. lia.
  - unfold fetching_total in *. cbn [world callers].
    rewrite Hstats, count_of_app, upstream_finishRefresh_count.
    change (count_of (outboundMeasurements t o)
              goblet.OutboundCommandProcessingTime) with 1%nat. lia.
Qed.

Lemma accounted_step (s0 s : Flight) (a : Action) :
  accounted s0 s → accounted s0 (flight_step a s).
Proof.
  intros Hs. destruct a as [i|i o]; cbn.
  - destruct (callers s !! i) as [[r t|r t k|r t|r t res]|] eqn:Ei;
      try exact Hs; by eapply accounted_enter.
  - destruct (callers s !! i) as [[r t|r t k|r t|r t res]|] eqn:Ei;
      try exact Hs. by eapply accounted_complete.
Qed.

Lemma accounted_run (s0 : Flight) (schedule : list Action) (s : Flight) :
  accounted s0 s → accounted s0 (flight_run schedule s).
Proof.
  revert s. induction schedule as [|a schedule IH]; intros s Hs; [done |].
  apply (IH (flight_step a s)), accounted_step, Hs.
Qed.

Lemma quiescent_none_fetching (s : Flight) :
  quiescent s → fetching_total s = 0%nat.
Proof.
  intros [Hc _]. unfold fetching_total, count_true.
  induction Hc as [|c l (r & t & ->) _ IH]; [done |].
  rewrite filter_cons. case_decide; [discriminate | exact IH].
Qed.



End FetchCoordinatorFacts.

(** End-to-end scenario 3: ten requests for a never-seen repository arrive
    together; one of them fetches, nine wait, and all ten return the
    result of that one fetch. *)
Example ten_clients_one_fetch :
  let s := core.flight_run
             ((core.Call <$> seq 0 10) ++ [core.Complete 0 (core.fetched None)])
             (core.stampede 10) in
  core.callers s = replicate 10 (core.Returned 0 core.UploadPack None)
  ∧ core.upstream (core.world s) = [core.UpFetch 0 core.FullClone]
  ∧ core.count_of (core.stats (core.world s)) goblet.OutboundCommandCount
    = 1%nat
  ∧ core.state_of 0 (core.world s) = Some core.Fresh.
Proof. vm_compute. repeat split. Qed.

(** * Properties of the Protocol Front Door *)

Section FrontDoorFacts.

Import core.

Variable localDiskPath : string → string.
Variable canonicalize : string → string + string.
Variable executor : Command → Cache → nat → ExecResult.
Variable origin : nat → FetchOutcome.
Variable push : string → string → string + string.

Abbreviation ensureFresh := (core.ensureFresh origin).
Abbreviation serveRead := (core.serveRead localDiskPath executor origin).
Abbreviation dispatch := (core.dispatch localDiskPath executor origin push).
Abbreviation frontDoor :=
  (core.frontDoor localDiskPath canonicalize executor origin push).

Lemma only_outbound_refl (w : World) : only_outbound_added w w.
Proof. exists []. split; [by rewrite app_nil_r | constructor]. Qed.

Lemma only_outbound_trans (w1 w2 w3 : World) :
  only_outbound_added w1 w2 → only_outbound_added w2 w3 →
  only_outbound_added w1 w3.
Proof.
  intros (m1 & E1 & F1) (m2 & E2 & F2). exists (m1 ++ m2)%list.
  split; [by rewrite E2, E1, app_assoc | by apply Forall_app].
Qed.

Lemma only_outbound_same_stats (w1 w2 w3 : World) :
  stats w3 = stats w2 → only_outbound_added w1 w2 →
  only_outbound_added w1 w3.
Proof. intros E (m & E1 & F1). exists m. by rewrite E. Qed.

Lemma outboundMeasurements_outbound (t : CommandType) (o : FetchOutcome) :
  Forall is_outbound (outboundMeasurements t o).
Proof. constructor; [by left |]. constructor; [by right | constructor]. Qed.

(** One call of [ensureFresh] is one logged call, and the only
    measurements it adds are outbound ones. *)
Lemma ensureFresh_effects (r : nat) (t : CommandType) (why : Cause)
      (w : World) :
  events (ensureFresh r t why w).2
    = (events w ++ [CallEnsureFresh r why])%list ∧
  only_outbound_added w (ensureFresh r t why w).2 ∧
  reports (ensureFresh r t why w).2 = reports w.
Proof.
  unfold core.ensureFresh.
  pose proof (beginRefresh_cases r (note (CallEnsureFresh r why) w)) as Hb.
  destruct (beginRefresh r (note (CallEnsureFresh r why) w))
    as [[[|k] w1]|]; cbn [snd].
  - destruct Hb as [-> _].
    assert (Hj : ∀ res : option string,
               events (res, note (CallEnsureFresh r why) w).2
               = (events w ++ [CallEnsureFresh r why])%list ∧
               only_outbound_added w
                 (res, note (CallEnsureFresh r why) w).2 ∧
               reports (res, note (CallEnsureFresh r why) w).2 = reports w).
    { intros res. split; [reflexivity |]. split; [| reflexivity].
      exists []. split; [cbn; by rewrite app_nil_r | constructor]. }
    destruct (last_fetch r (upstream (note (CallEnsureFresh r why) w)) 0);
      apply Hj.
  - destruct Hb as (e & _ & _ & _ & ->). split; [reflexivity |].
    split; [| reflexivity].
    eexists. split; [reflexivity | apply outboundMeasurements_outbound].
  - split; [reflexivity |]. split; [| reflexivity].
    exists []. split; [cbn; by rewrite app_nil_r | constructor].
Qed.

Lemma retryAfterMiss_trace (cmd : Command) (r : nat) (w : World) :
  only_outbound_added w (core.retryAfterMiss executor origin cmd r w).2 ∧
  ∃ res',
    events (core.retryAfterMiss executor origin cmd r w).2
    = (events w ++ [CallEnsureFresh r BecauseMissingObject;
                    CallExecutor r 1 res'])%list ∧
    (res' = MissingObject →
     canonicalStatus (core.retryAfterMiss executor origin cmd r w).1
       = UpstreamError ∧
     responseBody (core.retryAfterMiss executor origin cmd r w).1 = None).
Proof.
  unfold core.retryAfterMiss.
  pose proof (ensureFresh_effects r (type cmd) BecauseMissingObject w)
    as (Hev & Hst & _).
  destruct (ensureFresh r (type cmd) BecauseMissingObject w)
    as [second w4]. cbn [snd] in Hev, Hst.
  set (w5 := match second with Some e => report e w4 | None => w4 end).
  assert (Hev5 : events w5 = events w4) by (by destruct second).
  assert (Hst5 : stats w5 = stats w4) by (by destruct second).
  unfold core.runExecutor.
  split.
  - eapply only_outbound_same_stats; [| exact Hst].
    destruct (executor cmd (cache w5) 1); cbn; exact Hst5.
  - exists (executor cmd (cache w5) 1%nat). split.
    + destruct (executor cmd (cache w5) 1); cbn;
        by rewrite Hev5, Hev, <- app_assoc.
    + intros ->. by split.
Qed.

Lemma serveFromMirror_trace (cmd : Command) (r : nat) (cs : CacheState)
      (w : World) :
  only_outbound_added w (core.serveFromMirror executor origin cmd r cs w).2 ∧
  ((∃ res, res ≠ MissingObject ∧
           events (core.serveFromMirror executor origin cmd r cs w).2
           = (events w ++ [CallExecutor r 0 res])%list) ∨
   (∃ res',
      events (core.serveFromMirror executor origin cmd r cs w).2
      = (events w ++ [CallExecutor r 0 MissingObject;
                      CallEnsureFresh r BecauseMissingObject;
                      CallExecutor r 1 res'])%list ∧
      (res' = MissingObject →
       canonicalStatus (core.serveFromMirror executor origin cmd r cs w).1
         = UpstreamError ∧
       responseBody (core.serveFromMirror executor origin cmd r cs w).1
         = None))).
Proof.
  unfold core.serveFromMirror, core.runExecutor.
  destruct (executor cmd (cache w) 0) as [b| |e] eqn:Ex.
  - split; [by apply (only_outbound_same_stats w w), only_outbound_refl |].
    left. exists (Output b). by split.
  - pose proof (retryAfterMiss_trace cmd r
                  (note (CallExecutor r 0 MissingObject) w))
      as (Hst & res' & Hev & Hhard).
    split; [exact Hst |]. right. exists res'.
    split; [| exact Hhard]. rewrite Hev. cbn. by rewrite <- app_assoc.
  - split; [by apply (only_outbound_same_stats w w), only_outbound_refl |].
    left. exists (ExecFailure e). by split.
Qed.

(** The calls one read command makes, in order: possibly a refresh of a
    stale entry; then nothing more if that refresh failed, or one run of
    the Executor, or a run that misses followed by one refresh and one
    retry. *)
Lemma serveRead_trace (cmd : Command) (w : World) :
  only_outbound_added w (serveRead cmd w).2 ∧
  ∃ r pre,
    (pre = [] ∨ pre = [CallEnsureFresh r BecauseStale]) ∧
    (events (serveRead cmd w).2 = (events w ++ pre)%list ∨
     (∃ res, res ≠ MissingObject ∧
             events (serveRead cmd w).2
             = (events w ++ pre ++ [CallExecutor r 0 res])%list) ∨
     (∃ res',
        events (serveRead cmd w).2
        = (events w ++ pre ++ [CallExecutor r 0 MissingObject;
                               CallEnsureFresh r BecauseMissingObject;
                               CallExecutor r 1 res'])%list ∧
        (res' = MissingObject →
         canonicalStatus (serveRead cmd w).1 = UpstreamError ∧
         responseBody (serveRead cmd w).1 = None))).
Proof.
  unfold core.serveRead.
  destruct (core.resolve localDiskPath (targetURL cmd) (cache w)) as [r c].
  set (w1 := with_cache c w).
  assert (H1 : only_outbound_added w w1)
    by (by apply (only_outbound_same_stats w w), only_outbound_refl).
  destruct (is_stale r c).
  - pose proof (ensureFresh_effects r (type cmd) BecauseStale w1)
      as (Hev & Hst & _).
    destruct (ensureFresh r (type cmd) BecauseStale w1) as [[e|] w2];
      cbn [snd] in Hev, Hst.
    + split; [exact (only_outbound_trans _ _ _ H1 Hst) |].
      exists r, [CallEnsureFresh r BecauseStale]. split; [by right |].
      left. exact Hev.
    + pose proof (serveFromMirror_trace cmd r Miss w2) as (Hst2 & Hcases).
      split.
      { exact (only_outbound_trans _ _ _
                 (only_outbound_trans _ _ _ H1 Hst) Hst2). }
      exists r, [CallEnsureFresh r BecauseStale]. split; [by right |].
      right. destruct Hcases as [(res & Hne & E)|(res' & E & Hhard)].
      * left. exists res. split; [done |]. by rewrite E, Hev, <- app_assoc.
      * right. exists res'. split; [| done].
        by rewrite E, Hev, <- app_assoc.
  - pose proof (serveFromMirror_trace cmd r Hit w1) as (Hst2 & Hcases).
    split; [exact (only_outbound_trans _ _ _ H1 Hst2) |].
    exists r, []. split; [by left |].
    right. destruct Hcases as [(res & Hne & E)|(res' & E & Hhard)].
    + left. exists res. by split.
    + right. exists res'. by split.
Qed.

(** One call of [ensureFresh] starts at most one upstream fetch, and
    exactly one unless the entry is being refreshed already. *)
Lemma ensureFresh_fetches (r : nat) (t : CommandType) (why : Cause)
      (w : World) :
  (fetch_count (ensureFresh r t why w).2 ≤ S (fetch_count w))%nat ∧
  (∀ x, state_of r w = Some x → x ≠ Refreshing →
        fetch_count (ensureFresh r t why w).2 = S (fetch_count w)).
Proof.
  unfold core.ensureFresh.
  pose proof (beginRefresh_cases r (note (CallEnsureFresh r why) w)) as Hb.
  destruct (beginRefresh r (note (CallEnsureFresh r why) w))
    as [[[|k] w1]|].
  - destruct Hb as [-> Hst].
    assert (Hj : ∀ res : option string,
               (fetch_count (res, note (CallEnsureFresh r why) w).2
                ≤ S (fetch_count w))%nat ∧
               (∀ x, state_of r w = Some x → x ≠ Refreshing →
                     fetch_count (res, note (CallEnsureFresh r why) w).2
                     = S (fetch_count w))).
    { intros res.
      split; [change (fetch_count w ≤ S (fetch_count w))%nat; lia |].
      intros x Hx Hne. change (state_of r w = Some Refreshing) in Hst.
      congruence. }
    destruct (last_fetch r (upstream (note (CallEnsureFresh r why) w)) 0);
      apply Hj.
  - destruct Hb as (e & _ & _ & _ & ->). cbn [snd].
    rewrite upstream_finishRefresh_count.
    assert (fetch_count
              (call_upstream (UpFetch r k)
                 (with_cache
                    (set_state r toRefreshing
                       (cache (note (CallEnsureFresh r why) w)))
                    (note (CallEnsureFresh r why) w)))
            = S (fetch_count w)) as ->.
    { unfold fetch_count. cbn [upstream call_upstream with_cache note].
      rewrite count_snoc. cbn [is_fetch Nat.b2n]. lia. }
    split; [lia | done].
  - cbn [snd].
    split; [change (fetch_count w ≤ S (fetch_count w))%nat; lia |].
    intros x Hx _. change (heap (cache w) !! r = None) in Hb.
    unfold state_of in Hx. rewrite Hb in Hx. discriminate.
Qed.

(** C3. For every command that is served from the mirror (every command
    but a push, once its entry is resolved and, if it was never fetched,
    refreshed): when the Command Executor answers the first run with a
    missing object, the Front Door makes exactly one call of
    [ensureFresh] and exactly one more run of the Executor, in that
    order, and nothing after them; that cycle starts at most one
    upstream fetch (exactly one unless a refresh was already under
    way). What the Executor answers to the retry (run on the mirror as
    the command leaves it: nothing touches it after the retry) decides
    the outcome: a second missing object ends the command with a hard
    (upstream) error, reported and without a response body, and no
    further refresh or run. *)
Theorem miss_retries_once (cmd : Command) (w w2 : World) (r : nat)
        (c : Cache) :
  type cmd ≠ ReceivePack →
  core.resolve localDiskPath (targetURL cmd) (cache w) = (r, c) →
  (if is_stale r c
   then ensureFresh r (type cmd) BecauseStale (with_cache c w)
   else (None, with_cache c w)) = (None, w2) →
  executor cmd (cache w2) 0 = MissingObject →
  let out := (dispatch cmd w).1 in
  let w' := (dispatch cmd w).2 in
  let retry := executor cmd (cache w') 1 in
  events w' = (events w2 ++ [CallExecutor r 0 MissingObject;
                             CallEnsureFresh r BecauseMissingObject;
                             CallExecutor r 1 retry])%list ∧
  (fetch_count w' ≤ S (fetch_count w2))%nat ∧
  (∀ x, state_of r w2 = Some x → x ≠ Refreshing →
        fetch_count w' = S (fetch_count w2)) ∧
  cacheState out = Miss ∧
  match retry with
  | Output b => canonicalStatus out = Success ∧ responseBody out = Some b
  | MissingObject =>
      canonicalStatus out = UpstreamError ∧ responseBody out = None ∧
      last (reports w') = Some "object missing after refresh"
  | ExecFailure e =>
      canonicalStatus out = InternalError ∧ responseBody out = None ∧
      last (reports w') = Some e
  end.
Proof.
  intros Ht Hres Hfirst Hmiss.
  assert (Hd : dispatch cmd w
               = core.retryAfterMiss executor origin cmd r
                   (note (CallExecutor r 0 MissingObject) w2)).
  { unfold core.dispatch.
    assert (Hread : serveRead cmd w
                    = core.retryAfterMiss executor origin cmd r
                        (note (CallExecutor r 0 MissingObject) w2)).
    { unfold core.serveRead. rewrite Hres, Hfirst.
      unfold core.serveFromMirror, core.runExecutor. by rewrite Hmiss. }
    destruct (type cmd); congruence. }
  rewrite Hd. clear Hd. unfold core.retryAfterMiss.
  set (w3 := note (CallExecutor r 0 MissingObject) w2).
  pose proof (ensureFresh_effects r (type cmd) BecauseMissingObject w3)
    as (Hev & _ & _).
  pose proof (ensureFresh_fetches r (type cmd) BecauseMissingObject w3)
    as (Hle & Heq).
  destruct (ensureFresh r (type cmd) BecauseMissingObject w3)
    as [second w4]. cbn [snd] in Hev, Hle, Heq.
  set (w5 := match second with Some e => report e w4 | None => w4 end).
  assert (Hev5 : events w5 = (events w2 ++
                              [CallExecutor r 0 MissingObject;
                               CallEnsureFresh r BecauseMissingObject])%list).
  { transitivity (events w4); [by destruct second |].
    rewrite Hev. subst w3. cbn [events note]. by rewrite <- app_assoc. }
  assert (Hf5 : fetch_count w5 = fetch_count w4) by (by destruct second).
  assert (Hf3 : fetch_count w3 = fetch_count w2) by reflexivity.
  unfold core.runExecutor.
  destruct (executor cmd (cache w5) 1) as [b| |e] eqn:Ex;
    cbn [fst snd core.succeed core.fail cache report note events
         canonicalStatus responseBody cacheState reports];
    rewrite Ex, Hev5, <- app_assoc; cbn [app];
    (split; [reflexivity |]);
    (split; [change (fetch_count w5 ≤ S (fetch_count w2))%nat; lia |]);
    (split; [intros x Hx Hne;
             change (fetch_count w5 = S (fetch_count w2));
             rewrite Hf5; by apply (Heq x) |]);
    (split; [reflexivity |]);
    repeat split; apply last_snoc.
Qed.

Lemma dispatch_only_outbound (cmd : Command) (w : World) :
  only_outbound_added w (dispatch cmd w).2.
Proof.
  unfold core.dispatch.
  destruct (type cmd); try apply serveRead_trace.
  unfold core.serveWrite.
  destruct (push (targetURL cmd) (payload cmd));
    by apply (only_outbound_same_stats w w), only_outbound_refl.
Qed.

Lemma count_of_outbound (mid : list Measurement) :
  Forall is_outbound mid →
  count_of mid goblet.InboundCommandCount = 0%nat ∧
  count_of mid goblet.InboundCommandProcessingTime = 0%nat.
Proof.
  unfold count_of. induction 1 as [|m mid Hm _ [IH1 IH2]]; [done |].
  rewrite !filter_cons.
  destruct Hm as [Hm|Hm]; rewrite Hm;
    repeat case_decide; try discriminate; by split.
Qed.

(** C6. A ReceivePack command leaves the cache (registry, entries and
    mirror directories) as it was, makes no call into the Fetch Coordinator
    or the Executor, records no measurement of its own, and makes exactly
    one upstream call: the forwarding of the request body, unmodified, to
    the target URL. The response is the origin's, marked as a cache bypass.
    Through the Front Door, the body forwarded is the body received. *)
Theorem receive_pack_bypasses_mirror (cmd : Command) (w : World) :
  type cmd = ReceivePack →
  cache (dispatch cmd w).2 = cache w ∧
  events (dispatch cmd w).2 = events w ∧
  stats (dispatch cmd w).2 = stats w ∧
  upstream (dispatch cmd w).2
    = (upstream w ++ [UpForward (targetURL cmd) (payload cmd)])%list ∧
  fetch_count (dispatch cmd w).2 = fetch_count w ∧
  cacheState (dispatch cmd w).1 = Bypass ∧
  match push (targetURL cmd) (payload cmd) with
  | inl resp => responseBody (dispatch cmd w).1 = Some resp ∧
                canonicalStatus (dispatch cmd w).1 = Success
  | inr _ => responseBody (dispatch cmd w).1 = None ∧
             canonicalStatus (dispatch cmd w).1 = UpstreamError
  end ∧
  (∀ path body latency u,
     canonicalize path = inl u →
     upstream (frontDoor ReceivePack path body latency w).2
       = (upstream w ++ [UpForward u body])%list ∧
     cache (frontDoor ReceivePack path body latency w).2 = cache w).
Proof.
  intros Ht. unfold core.frontDoor, core.dispatch. rewrite Ht.
  unfold core.serveWrite, fetch_count.
  assert (Hf : ∀ u b, count_true is_fetch (upstream w ++ [UpForward u b])
                      = count_true is_fetch (upstream w)).
  { intros u b. unfold count_true.
    rewrite filter_app, length_app, filter_cons.
    case_decide; [discriminate | cbn; lia]. }
  split.
  { by destruct (push (targetURL cmd) (payload cmd)). }
  split.
  { by destruct (push (targetURL cmd) (payload cmd)). }
  split.
  { by destruct (push (targetURL cmd) (payload cmd)). }
  split.
  { by destruct (push (targetURL cmd) (payload cmd)). }
  split.
  { destruct (push (targetURL cmd) (payload cmd)); cbn; apply Hf. }
  split.
  { by destruct (push (targetURL cmd) (payload cmd)). }
  split.
  { by destruct (push (targetURL cmd) (payload cmd)). }
  intros path body latency u ->. cbn.
  by destruct (push u body).
Qed.


End FrontDoorFacts.

Lemma receive_pack_bypasses_mirror_witness :
  core.upstream
    (core.dispatch (λ u, "/cache/" +:+ u) core.always_missing
       core.healthy_origin (λ _ _, inl "unpack ok")
       {| core.type := core.ReceivePack; core.targetURL := "org/repo";
          core.payload := "0000" |} core.unseen_repo).2
  = [core.UpForward "org/repo" "0000"].
Proof.
  exact (proj1 (proj2 (proj2 (proj2
           (receive_pack_bypasses_mirror (λ u, "/cache/" +:+ u) inl
              core.always_missing core.healthy_origin
              (λ _ _, inl "unpack ok")
              {| core.type := core.ReceivePack; core.targetURL := "org/repo";
                 core.payload := "0000" |} core.unseen_repo eq_refl))))).
Defined.

(** The simulation of section 8: the Executor reports a missing object
    twice in a row for one command against a never-fetched repository. The
    entry is refreshed because it is stale, the run misses, one miss-driven
    refresh and one retry follow, and the second miss ends the command with
    an upstream error. *)
Lemma miss_retries_once_witness :
  let cmd := {| core.type := core.UploadPack; core.targetURL := "org/repo";
                core.payload := "want" |} in
  let res := core.dispatch (λ u, "/cache/" +:+ u) core.always_missing
               core.healthy_origin (λ _ _, inl "") cmd core.unseen_repo in
  core.events res.2
  = [core.CallEnsureFresh 0 core.BecauseStale;
     core.CallExecutor 0 0 core.MissingObject;
     core.CallEnsureFresh 0 core.BecauseMissingObject;
     core.CallExecutor 0 1 core.MissingObject]
  ∧ core.fetch_count res.2 = 2%nat
  ∧ core.canonicalStatus res.1 = core.UpstreamError
  ∧ core.responseBody res.1 = None
  ∧ last (core.reports res.2) = Some "object missing after refresh".
Proof.
  intros cmd res.
  pose proof (miss_retries_once (λ u, "/cache/" +:+ u) core.always_missing
                core.healthy_origin (λ _ _, inl "") cmd core.unseen_repo
                (core.ensureFresh core.healthy_origin 0 core.UploadPack
                   core.BecauseStale core.unseen_repo).2
                0%nat (core.cache core.unseen_repo)
                (λ H : core.UploadPack = core.ReceivePack,
                   eq_ind core.UploadPack
                     (λ t, match t with
                           | core.ReceivePack => False
                           | _ => True
                           end) I core.ReceivePack H)
                eq_refl eq_refl eq_refl)
    as (Hev & _ & Hfetch & _ & Hstatus & Hbody & Hreport).
  split; [exact Hev |].
  split; [exact (Hfetch core.Fresh eq_refl
                   (λ H : core.Fresh = core.Refreshing,
                      eq_ind core.Fresh
                        (λ s, match s with
                              | core.Refreshing => False
                              | _ => True
                              end) I core.Refreshing H)) |].
  split; [exact Hstatus |]. split; [exact Hbody | exact Hreport].
Defined.

(** * Further properties of [goblet-server/main.go] *)

Lemma string_app_nil_r (s : string) : s +:+ "" = s.
Proof.
  induction s as [|c s IH]; [reflexivity |].
  change (String c (s +:+ "") = String c s). by rewrite IH.
Qed.

Lemma ends_in_slash_cons (c : ascii) (s : string) :
  s ≠ "" → http.ends_in_slash (String c s) = http.ends_in_slash s.
Proof. by destruct s. Qed.

Lemma ends_in_slash_app (p : string) : http.ends_in_slash (p +:+ "/") = true.
Proof.
  induction p as [|c p IH]; [reflexivity |].
  change (String c p +:+ "/") with (String c (p +:+ "/")).
  rewrite ends_in_slash_cons; [exact IH |]. by destruct p.
Qed.

Lemma cleanPath_rooted (p : string) :
  ∃ rest, http.cleanPath p = String "/"%char rest.
Proof.
  destruct p as [|c p]; [by eexists |].
  unfold http.cleanPath, http.path_Clean.
  match goal with
  | |- context [if ?b then _ else _] => destruct b
  end; by eexists.
Qed.

(** The mux of [main] never adds a slash to a rooted path: the one
    pattern that ends in a slash is [/] itself. *)
Lemma main_mux_no_slash_redirect (h : http.Handler) (rest : string) :
  http.shouldRedirect [("/healthz", goblet_server.healthz); ("/", h)]
    (String "/"%char rest) = false.
Proof.
  unfold http.shouldRedirect, http.registered. cbn [http.match_exact].
  destruct ("/healthz" =? String "/"%char rest)%string; [reflexivity |].
  destruct ("/" =? String "/"%char rest)%string; [reflexivity |].
  assert (("/healthz" =? String "/"%char rest +:+ "/")%string = false) as ->.
  { apply String.eqb_neq. intros H.
    pose proof (ends_in_slash_app (String "/"%char rest)) as Hs.
    rewrite <- H in Hs. discriminate. }
  assert (("/" =? String "/"%char rest +:+ "/")%string = false) as ->.
  { apply String.eqb_neq.
    change (String "/"%char rest +:+ "/")
      with (String "/"%char (rest +:+ "/")).
    intros [= H]. by destruct rest. }
  reflexivity.
Qed.

(** Every rooted path but [/healthz] is matched by the pattern [/]. *)
Lemma main_mux_catch_all (h : http.Handler) (rest : string) :
  String "/"%char rest ≠ "/healthz" →
  http.handler [("/healthz", goblet_server.healthz); ("/", h)]
    (String "/"%char rest) = h.
Proof.
  intros Hne. unfold http.handler, http.mux_match.
  cbn [http.match_exact].
  assert (("/healthz" =? String "/"%char rest)%string = false) as ->.
  { apply String.eqb_neq. congruence. }
  destruct ("/" =? String "/"%char rest)%string; [reflexivity |].
  cbn [http.match_subtree].
  change (http.ends_in_slash "/healthz") with false.
  change (http.ends_in_slash "/") with true.
  assert (String.prefix "/" (String "/"%char rest) = true) as ->
    by (simpl; by destruct rest).
  reflexivity.
Qed.

Lemma Header_Set_status (key value : string) (w : http.ResponseWriter) :
  http.status (http.Header_Set key value w) = http.status w.
Proof. unfold http.Header_Set. by destruct (http.status w) eqn:E. Qed.

Lemma Redirect_status (url : string) (code : Z) (w : http.ResponseWriter)
      (r : http.Request) :
  http.status (http.Redirect url code w r)
  = Some (default code (http.status w)).
Proof.
  unfold http.Redirect. destruct (http.cut_query url) as [u query].
  repeat match goal with
         | |- context [if ?b then _ else _] =>
             match type of b with bool => destruct b end
         end;
    cbn [http.Write http.WriteHeader http.status];
    rewrite ?Header_Set_status; by destruct (http.status w).
Qed.

(** X1. Routing. Every request whose path is clean (it is what
    [cleanPath] makes of it: rooted, with no empty element, [.] or [..])
    and is not exactly [/healthz] is served by the handler that
    [goblet.HTTPHandler] built from the configuration: the pattern [/]
    catches all, including [/healthz/] and anything below it. *)
Theorem other_paths_reach_goblet
        Quote Duration_String DumpRequest CanonicalizeURL HTTPHandler
        view_Register (port : Z) (cacheRoot : string)
        (p : goblet_server.Process) (w0 : http.ResponseWriter)
        (r : http.Request) :
  goblet_server.main Quote Duration_String DumpRequest CanonicalizeURL
    HTTPHandler view_Register port cacheRoot = inr p →
  http.cleanPath (http.URL_Path r) = http.URL_Path r →
  http.URL_Path r ≠ "/healthz" →
  http.ServeHTTP (goblet_server.mux p) w0 r
  = HTTPHandler (goblet_server.serverConfig p) w0 r.
Proof.
  intros Hmain Hclean Hne.
  destruct (main_started _ _ _ _ _ _ _ _ _ Hmain) as [_ Hmux].
  destruct (cleanPath_rooted (http.URL_Path r)) as [rest Hrest].
  rewrite Hclean in Hrest.
  unfold http.ServeHTTP, http.ServeMux_Handler.
  rewrite Hmux, Hclean, Hrest, !main_mux_no_slash_redirect.
  rewrite String.eqb_refl. cbn [negb].
  rewrite main_mux_catch_all by congruence.
  change (String "/"%char rest =? "*")%string with false.
  by destruct (http.Method r =? "CONNECT")%string.
Qed.

Lemma other_paths_reach_goblet_witness :
  ∃ p,
    goblet_server.main id (λ _, "") (λ _ _, inl "") inl
      (λ _ w _, http.Write "refs" w) (λ _, None) 8080 "/cache" = inr p ∧
    http.body (http.ServeHTTP (goblet_server.mux p) http.newResponseWriter
                 (http.mkRequest "GET" "/healthz/" "" ""))
    = "refs".
Proof.
  eexists. split; [reflexivity |].
  exact (f_equal http.body
           (other_paths_reach_goblet
              id (λ _, "") (λ _ _, inl "") inl
              (λ _ w _, http.Write "refs" w) (λ _, None)
              8080 "/cache" _ http.newResponseWriter
              (http.mkRequest "GET" "/healthz/" "" "")
              eq_refl eq_refl
              (λ H : "/healthz/" = "/healthz",
                 eq_ind "/healthz/"
                   (λ s, if String.eqb s "/healthz" then False else True)
                   I "/healthz" H))).
Defined.



(** X5. [main] listens on every interface, on the port of the [-port] flag
    written in decimal, and hands the [-cache_root] flag and the
    canonicalizer to the handler unchanged. *)
Theorem main_listen_address
        Quote Duration_String DumpRequest CanonicalizeURL HTTPHandler
        view_Register (port : Z) (cacheRoot : string)
        (p : goblet_server.Process) :
  goblet_server.main Quote Duration_String DumpRequest CanonicalizeURL
    HTTPHandler view_Register port cacheRoot = inr p →
  goblet_server.addr p = ":" +:+ pretty port ∧
  config.LocalDiskCacheRoot (goblet_server.serverConfig p) = cacheRoot ∧
  config.URLCanonializer (goblet_server.serverConfig p) = CanonicalizeURL.
Proof.
  unfold goblet_server.main.
  destruct (view_Register goblet_server.views); [discriminate |].
  intros [= <-]. cbn -[pretty String.append].
  by rewrite string_app_nil_r.
Qed.

Lemma main_listen_address_witness :
  ∃ p,
    goblet_server.main id (λ _, "") (λ _ _, inl "") inl (λ _ w _, w)
      (λ _, None) 8080 "/cache" = inr p ∧
    goblet_server.addr p = ":8080".
Proof.
  eexists. split; [reflexivity |].
  exact (proj1 (main_listen_address
                  id (λ _, "") (λ _ _, inl "") inl (λ _ w _, w) (λ _, None)
                  8080 "/cache" _ eq_refl)).
Defined.

(** X6. The request logger [main] configures only ever appends to the log:
    nothing when the dump fails, otherwise the one line made of the quoted
    dump, the status, the two sizes and the latency, in that order. *)
Theorem configured_request_logger
        Quote Duration_String DumpRequest CanonicalizeURL HTTPHandler
        view_Register (port : Z) (cacheRoot : string)
        (p : goblet_server.Process) :
  goblet_server.main Quote Duration_String DumpRequest CanonicalizeURL
    HTTPHandler view_Register port cacheRoot = inr p →
  ∃ f,
    config.RequestLogger (goblet_server.serverConfig p) = Some f ∧
    ∀ r status requestSize responseSize latency l,
      f r status requestSize responseSize latency l
      = match DumpRequest r false with
        | inl dump =>
            (l ++ [Quote dump +:+ " " +:+ pretty status +:+ " reqsize: " +:+
                   pretty requestSize +:+ ", respsize " +:+
                   pretty responseSize +:+ ", latency: " +:+
                   Duration_String latency])%list
        | inr _ => l
        end.
Proof.
  unfold goblet_server.main.
  destruct (view_Register goblet_server.views); [discriminate |].
  intros [= <-]. eexists. split; [reflexivity |].
  intros r status requestSize responseSize latency l.
  unfold goblet_server.rl, log.Printf.
  destruct (DumpRequest r false); [| reflexivity].
  by rewrite rl_line, string_app_nil_r.
Qed.

Lemma configured_request_logger_witness :
  ∃ p f,
    goblet_server.main id (λ _, "1ms") (λ r _, inl (http.Method r)) inl
      (λ _ w _, w) (λ _, None) 8080 "/cache" = inr p ∧
    config.RequestLogger (goblet_server.serverConfig p) = Some f ∧
    f (http.mkRequest "GET" "/a" "" "") 200 10 20 1000000 ["earlier"]
    = ["earlier"; "GET 200 reqsize: 10, respsize 20, latency: 1ms"].
Proof.
  eexists.
  destruct (configured_request_logger
              id (λ _, "1ms") (λ r _, inl (http.Method r)) inl
              (λ _ w _, w) (λ _, None) 8080 "/cache" _ eq_refl)
    as (f & Hf & Hline).
  exists f. split; [reflexivity |]. split; [exact Hf |].
  rewrite Hline. reflexivity.
Defined.

Lemma lrol_lines (Quote : string → string) (Duration_String : Z → string)
      (action u msg : string) (err : option string) :
  fmt.Sprintf Quote Duration_String "Starting %s for %s"
    [fmt.Str action; fmt.Str u]
  = "Starting " +:+ action +:+ " for " +:+ u ∧
  fmt.Sprintf Quote Duration_String "Progress %s (%s): %s"
    [fmt.Str action; fmt.Str u; fmt.Str msg]
  = "Progress " +:+ action +:+ " (" +:+ u +:+ "): " +:+ msg ∧
  fmt.Sprintf Quote Duration_String "Finished %s for %s: %v"
    [fmt.Str action; fmt.Str u; fmt.Err err]
  = "Finished " +:+ action +:+ " for " +:+ u +:+ ": " +:+
    default "<nil>" err.
Proof.
  repeat split; cbn -[String.append]; rewrite string_app_nil_r;
    try reflexivity; by destruct err.
Qed.

(** X7. The operation logger [main] configures: starting an operation logs
    one [Starting] line; the operation it returns is bound to the same
    action and URL; its [Printf] logs one [Progress] line whose message is
    formatted once (what the operands bring in is not read as a format
    again); its [Done] logs one [Finished] line that ends in the error, or
    in [<nil>]. Earlier log entries are kept. *)
Theorem configured_operation_logger
        Quote Duration_String DumpRequest CanonicalizeURL HTTPHandler
        view_Register (port : Z) (cacheRoot : string)
        (p : goblet_server.Process) :
  goblet_server.main Quote Duration_String DumpRequest CanonicalizeURL
    HTTPHandler view_Register port cacheRoot = inr p →
  ∃ f,
    config.LongRunningOperationLogger (goblet_server.serverConfig p)
    = Some f ∧
    ∀ action u l,
      (f action u l).2
      = (l ++ ["Starting " +:+ action +:+ " for " +:+ u])%list ∧
      (∀ format a l',
         config.Printf (f action u l).1 format a l'
         = (l' ++ ["Progress " +:+ action +:+ " (" +:+ u +:+ "): " +:+
                   fmt.Sprintf Quote Duration_String format a])%list) ∧
      (∀ err l',
         config.Done (f action u l).1 err l'
         = (l' ++ ["Finished " +:+ action +:+ " for " +:+ u +:+ ": " +:+
                   default "<nil>" err])%list).
Proof.
  unfold goblet_server.main.
  destruct (view_Register goblet_server.views); [discriminate |].
  intros [= <-]. eexists. split; [reflexivity |].
  intros action u l.
  unfold goblet_server.lrol, goblet_server.logBasedOperation, log.Printf.
  cbn [fst snd config.Printf config.Done].
  repeat split.
  - by rewrite (proj1 (lrol_lines Quote Duration_String action u "" None)).
  - intros format a l'.
    by rewrite (proj1 (proj2 (lrol_lines Quote Duration_String action u
                                (fmt.Sprintf Quote Duration_String format a)
                                None))).
  - intros err l'.
    by rewrite (proj2 (proj2 (lrol_lines Quote Duration_String action u ""
                                err))).
Qed.

Lemma configured_operation_logger_witness :
  ∃ p f,
    goblet_server.main id (λ _, "") (λ _ _, inl "") inl (λ _ w _, w)
      (λ _, None) 8080 "/cache" = inr p ∧
    config.LongRunningOperationLogger (goblet_server.serverConfig p)
    = Some f ∧
    let started := f "fetch" "https://example.com/r" [] in
    config.Done started.1 None
      (config.Printf started.1 "%d%% of %s" [fmt.Int 50; fmt.Str "%s"]
         started.2)
    = ["Starting fetch for https://example.com/r";
       "Progress fetch (https://example.com/r): 50% of %s";
       "Finished fetch for https://example.com/r: <nil>"].
Proof.
  eexists.
  destruct (configured_operation_logger
              id (λ _, "") (λ _ _, inl "") inl (λ _ w _, w) (λ _, None)
              8080 "/cache" _ eq_refl)
    as (f & Hf & Hop).
  exists f. split; [reflexivity |]. split; [exact Hf |].
  destruct (Hop "fetch" "https://example.com/r" []) as (Hs & Hp & Hd).
  cbn zeta. rewrite Hd, Hp, Hs. reflexivity.
Defined.

(** X8. The view table is fit for [view.Register]: the five names are
    pairwise distinct, no view lists a tag key twice, and every measure
    of the package is aggregated by exactly one view. *)
Theorem views_one_per_measure :
  NoDup (view.Name <$> goblet_server.views) ∧
  Forall (λ v, NoDup (view.TagKeys v)) goblet_server.views ∧
  ∀ m : goblet.Measure, ∃ v,
    goblet_server.views_of m = [v] ∧ v ∈ goblet_server.views.
Proof.
  split; [| split].
  - apply (bool_decide_unpack _). by vm_compute.
  - apply (bool_decide_unpack _). by vm_compute.
  - intros m. destruct m; eexists; (split; [reflexivity |]);
      unfold goblet_server.views; set_solver.
Qed.

(** X9. The two count measures are aggregated by [view.Count]; the three time
    measures share one distribution, whose twenty bucket bounds are
    positive and strictly increasing. *)
Theorem views_aggregations :
  Forall (λ v,
            view.Aggregation_ v
            = match view.Measure v with
              | goblet.InboundCommandCount | goblet.OutboundCommandCount =>
                  view.Count
              | _ => goblet_server.latencyDistributionAggregation
              end)
         goblet_server.views ∧
  ∃ bounds,
    goblet_server.latencyDistributionAggregation = view.Distribution bounds ∧
    length bounds = 20%nat ∧
    Forall (Z.lt 0) bounds ∧
    StronglySorted Z.lt bounds.
Proof.
  split.
  - unfold goblet_server.views. repeat constructor.
  - eexists. split; [reflexivity |]. split; [reflexivity |]. split.
    + repeat (constructor; [lia |]). constructor.
    + repeat (constructor; [| repeat (constructor; [lia |]); constructor]).
      constructor.
Qed.
